(** * Planar geometry kernel ([geometry/main.py]): points, lines, segments, polygons

    Shallow embedding of the value types [Point], [Line], [Segment] and
    [Polygon] and of the derivations built on them (containment,
    intersection, perpendiculars, triangle centres, the Euler line).

    Numbers.  The Python code computes on [float] (and on [int] where the
    caller passes integers).  The file reads it twice.

    In the exact reading, which the modules [Point], [Line], [Segment] and
    [Polygon] carry, every number is an exact rational [Q]: [+], [-], [*]
    and [/] are exact, [==] on numbers is [Qeq_bool], and [/] raises
    [ZeroDivisionError] exactly when the divisor compares equal to zero, as
    Python's true division does.  The one non-rational value the code
    manufactures, [float('inf')], is the extra constructor [Inf] of
    [xfloat].  [math.dist] takes a square root and therefore lands in [R].
    Rounding, overflow and underflow are outside that reading, and so is NaN
    as an input; the one [nan] the code can compute from such numbers,
    [inf - inf] inside [Line.dist], is a value of [efloat].  The universal
    theorems below are about this reading.

    In the binary64 reading, which the module [Binary64] carries, the same
    functions are transcribed once more over IEEE 754 double precision
    numbers ([PrimFloat.float]), with rounding to nearest, [inf] and [nan]:
    this is what the interpreter computes.  It is used to run the code on
    concrete inputs, and shows where a statement that holds for exact numbers
    fails for the floats of the program.

    Exceptions.  A Python call either returns or raises; [result] records
    which, and [x <- e ;; k] sequences calls the way Python propagates an
    exception out of nested calls. *)

From Stdlib Require Import ZArith QArith Qabs Qfield Lia List Bool Arith.
From Stdlib Require Import Permutation.
From Stdlib Require Import Reals Qreals Psatz.
From Stdlib Require PrimFloat Uint63.
Import ListNotations.

Local Open Scope Q_scope.

(** ** Exceptions and the result of a call *)

Inductive exn : Set :=
| ZeroDivisionError
| GeometryException
| AssertionError
| TypeError
| ValueError
| AttributeError
| StatisticsError.

Inductive result (A : Type) : Type :=
| Ok (v : A)
| Raise (e : exn).

Arguments Ok {A} v.
Arguments Raise {A} e.

Definition bind {A B : Type} (r : result A) (k : A -> result B) : result B :=
  match r with
  | Ok v => k v
  | Raise e => Raise e
  end.

Notation "x <- e ;; k" := (bind e (fun x => k))
  (at level 61, e at next level, right associativity).

(** A list comprehension [[f(v) for v in l]] whose body may raise: elements
    are evaluated left to right and the first exception aborts the rest. *)
Fixpoint mapM {A B : Type} (f : A -> result B) (l : list A) : result (list B) :=
  match l with
  | [] => Ok []
  | v :: l' => w <- f v ;; ws <- mapM f l' ;; Ok (w :: ws)
  end.

(** ** Numbers *)

(** Python's [n / d]. *)
Definition truediv (n d : Q) : result Q :=
  if Qeq_bool d 0 then Raise ZeroDivisionError else Ok (n / d).

(** A float that is either an (exact) number or [float('inf')]. *)
Inductive xfloat : Set :=
| Finite (q : Q)
| Inf.

(** [==] on such values: [inf == inf], and no number equals [inf]. *)
Definition xfloat_eqb (u v : xfloat) : bool :=
  match u, v with
  | Finite p, Finite q => Qeq_bool p q
  | Inf, Inf => true
  | _, _ => false
  end.

(** [EPSILON = Epsilon(1e-6)], the global precision. *)
Definition EPSILON : Q := 1 # 1000000.

(** [statistics.mean]. *)
Definition mean (data : list Q) : result Q :=
  match data with
  | [] => Raise StatisticsError
  | _ => Ok (fold_right Qplus 0 data / inject_Z (Z.of_nat (length data)))
  end.

(** Python's [n / d] on floats that are real numbers. *)
Definition rtruediv (n d : R) : result R :=
  if Req_dec_T d 0 then Raise ZeroDivisionError else Ok (n / d)%R.

(** [math.hypot(u, v)] *)
Definition hypot (u v : Q) : R := sqrt (Q2R (u * u + v * v)).

(** The value of a float expression that may involve [inf]: a real number,
    an infinity, or [nan].  Only [Line.dist] needs it. *)
Inductive efloat : Type :=
| EReal (r : R)
| EPosInf
| ENegInf
| ENaN.

Definition efloat_of (u : xfloat) : efloat :=
  match u with
  | Finite q => EReal (Q2R q)
  | Inf => EPosInf
  end.

(** [u - v]: [inf - inf] is [nan]. *)
Definition esub (u v : efloat) : efloat :=
  match u, v with
  | ENaN, _ | _, ENaN => ENaN
  | EReal a, EReal b => EReal (a - b)
  | EReal _, EPosInf => ENegInf
  | EReal _, ENegInf => EPosInf
  | EPosInf, EPosInf => ENaN
  | EPosInf, _ => EPosInf
  | ENegInf, ENegInf => ENaN
  | ENegInf, _ => ENegInf
  end.

(** [abs(u)] *)
Definition eabs (u : efloat) : efloat :=
  match u with
  | EReal a => EReal (Rabs a)
  | EPosInf | ENegInf => EPosInf
  | ENaN => ENaN
  end.

(** [math.hypot(m, 1)] where [m] may be [inf]. *)
Definition ehypot1 (m : xfloat) : efloat :=
  match m with
  | Finite q => EReal (hypot q 1)
  | Inf => EPosInf
  end.

(** [u / v]: raises when the divisor is zero, whatever the dividend; a
    number over an infinity is zero; an infinity over an infinity is [nan]. *)
Definition ediv (u v : efloat) : result efloat :=
  match v with
  | EReal b =>
      if Req_dec_T b 0 then Raise ZeroDivisionError
      else Ok match u with
              | EReal a => EReal (a / b)
              | EPosInf => if Rlt_dec 0 b then EPosInf else ENegInf
              | ENegInf => if Rlt_dec 0 b then ENegInf else EPosInf
              | ENaN => ENaN
              end
  | EPosInf | ENegInf =>
      Ok match u with
         | EReal _ => EReal 0
         | _ => ENaN
         end
  | ENaN => Ok ENaN
  end.

(** ** Point *)

Module Point.

Record t : Set := mk { x : Q; y : Q }.

(** Iterating a point (through [__getitem__]) yields [x] then [y]. *)
Definition unpack (p : t) : list Q := [x p; y p].

(** The dataclass constructor applied to an unpacked tuple (star-arguments). *)
Definition of_args (args : list Q) : result t :=
  match args with
  | [u; v] => Ok (mk u v)
  | _ => Raise TypeError
  end.

(** The dataclass [__eq__]: field-wise. *)
Definition eqb (p q : t) : bool :=
  Qeq_bool (x p) (x q) && Qeq_bool (y p) (y q).

End Point.

(** [gradient(p, q)]: the slope of [(p, q)]. *)
Definition gradient (p q : Point.t) : result Q :=
  truediv (Point.y p - Point.y q) (Point.x p - Point.x q).

(** [midpoint]: [mean] mapped over the transposition ([zip]) of its star
    arguments.  The transposition of no points is empty; of some points it is
    the tuple of abscissas, then the tuple of ordinates. *)
Definition midpoint (p : list Point.t) : result (list Q) :=
  match p with
  | [] => Ok []
  | _ => mapM mean [map Point.x p; map Point.y p]
  end.

(** [math.dist(p, q)] on two points. *)
Definition dist (p q : Point.t) : R :=
  sqrt (Q2R ((Point.x p - Point.x q) * (Point.x p - Point.x q)
             + (Point.y p - Point.y q) * (Point.y p - Point.y q))).

(** ** Line: [a*x + b*y + c = 0] *)

Module Line.

Record t : Set := mk { a : Q; b : Q; c : Q }.

(** What [intersect] (and hence [circumcenter], [orthocenter]) hands back:
    a point, a line, or [None]. *)
Inductive meet : Set :=
| APoint (p : Point.t)
| ALine (l : t)
| ANone.

(** [__contains__]: [abs(a*x + b*y + c) <= EPSILON.value]. *)
Definition contains (self : t) (point : Point.t) : bool :=
  Qle_bool (Qabs (a self * Point.x point + b self * Point.y point + c self))
           EPSILON.

(** [x()]: the x intercept, [None] when [a == 0]. *)
Definition x (self : t) : option Point.t :=
  if Qeq_bool (a self) 0 then None
  else Some (Point.mk (- c self / a self) 0).

(** [y()]: the y intercept, [None] when [b == 0]. *)
Definition y (self : t) : option Point.t :=
  if Qeq_bool (b self) 0 then None
  else Some (Point.mk 0 (- c self / b self)).

(** [slope()]: [-a / b], or [inf] when the division raises. *)
Definition slope (self : t) : xfloat :=
  match truediv (- a self) (b self) with
  | Ok m => Finite m
  | Raise _ => Inf
  end.

(** [intercept()]: [-c / b], or [inf] when the division raises. *)
Definition intercept (self : t) : xfloat :=
  match truediv (- c self) (b self) with
  | Ok q => Finite q
  | Raise _ => Inf
  end.

(** [__eq__] against another line: same slope and same intercept. *)
Definition eqb (self other : t) : bool :=
  xfloat_eqb (slope self) (slope other)
  && xfloat_eqb (intercept self) (intercept other).

(** [__call__(x=None, y=None)]: an absent argument is [None]. *)
Definition call (self : t) (x y : option Q) : result Q :=
  match x, y with
  | Some x, None =>
      if Qeq_bool (b self) 0 then Ok (- a self * x - c self)
      else truediv (- a self * x - c self) (b self)
  | None, Some y =>
      if Qeq_bool (a self) 0 then Ok (- b self * y - c self)
      else truediv (- b self * y - c self) (a self)
  | _, _ => Raise GeometryException
  end.

(** [intersect(other)], also written [self & other]. *)
Definition intersect (self other : t) : result meet :=
  let denom := b self * a other - a self * b other in
  if Qeq_bool denom 0 then
    if negb (xfloat_eqb (intercept self) (intercept other)) then Ok ANone
    else Ok (ALine (mk (a self) (b self) (c self)))
  else
    x <- truediv (c self * b other - b self * c other) denom ;;
    y <- match y self with
         | Some _ => call self (Some x) None
         | None => call other (Some x) None
         end ;;
    Ok (APoint (Point.mk x y)).

Definition vline (x : Q) : t := mk 1 0 (- x).

Definition hline (y : Q) : t := mk 0 0 y.

(** [y = m*x + q]: [A = m], [B = -1], [C = q]. *)
Definition from_slope_intercept_form (slope intercept : Q) : t :=
  mk slope (-1) intercept.

Definition from_point_slope_form (point : Point.t) (slope : Q) : t :=
  mk slope (-1) (Point.y point - slope * Point.x point).

(** [from_points(a, b)]: the line through two points. *)
Definition from_points (p q : Point.t) : result t :=
  if Qeq_bool (Point.x p) (Point.x q) then Ok (vline (Point.x p))
  else m <- gradient p q ;; Ok (from_point_slope_form p m).

(** [from_points] applied to whatever [circumcenter] returned.  Reading
    [.x] off [None] raises [AttributeError]; a [Line] passes the [==] test
    (its [x] is a method, unequal to any number) and then fails to unpack
    into two coordinates inside [gradient]. *)
Definition from_points_dyn (p : meet) (q : Point.t) : result t :=
  match p with
  | APoint p => from_points p q
  | ALine _ => Raise ValueError
  | ANone => Raise AttributeError
  end.

(** The argument of [dist]: the method dispatches on [isinstance]. *)
Inductive operand : Set :=
| OfPoint (p : Point.t)
| OfLine (l : t).

(** [dist(other)]: distance to a point or to another line. *)
Definition dist (self : t) (other : operand) : result efloat :=
  match other with
  | OfPoint p =>
      r <- rtruediv
             (Q2R (Qabs (a self * Point.x p + b self * Point.y p + c self)))
             (hypot (a self) (b self)) ;;
      Ok (EReal r)
  | OfLine l =>
      let m := slope self in
      if negb (xfloat_eqb m (slope l)) then Ok (EReal 0)
      else ediv (eabs (esub (efloat_of (intercept self))
                            (efloat_of (intercept l))))
                (ehypot1 m)
  end.

(** [perpendicular(p)]: the perpendicular line through a point.  The slope
    is [-1 / self.slope()]; over [inf] that quotient is [-0.0], a zero. *)
Definition perpendicular (self : t) (p : Point.t) : result t :=
  m <- match slope self with
       | Finite s => truediv (-1) s
       | Inf => Ok 0
       end ;;
  let q := Point.y p - m * Point.x p in
  Ok (from_slope_intercept_form m q).

Definition slope_intercept_form (self : t) : xfloat * xfloat :=
  (slope self, intercept self).

End Line.

(** [Point.dist(other)]: Euclidean distance to a point, perpendicular
    distance to a line. *)
Definition Point_dist (self : Point.t) (other : Line.operand) : result R :=
  match other with
  | Line.OfPoint q => Ok (dist self q)
  | Line.OfLine l =>
      rtruediv
        (Q2R (Qabs (Line.a l * Point.x self + Line.b l * Point.y self
                    + Line.c l)))
        (hypot (Line.a l) (Line.b l))
  end.

(** ** Segment: an ordered pair of points *)

Module Segment.

Record t : Set := mk { A : Point.t; B : Point.t }.

(** Iterating a segment yields [A] then [B]. *)
Definition unpack (self : t) : list Point.t := [A self; B self].

Definition length (self : t) : R := dist (A self) (B self).

Definition line (self : t) : result Line.t :=
  Line.from_points (A self) (B self).

Definition midpoint (self : t) : result Point.t :=
  m <- midpoint (unpack self) ;; Point.of_args m.

(** [perpendicular(other)]: a perpendicular line through the given point. *)
Definition perpendicular (self : t) (other : Point.t) : result Line.t :=
  let denom := Point.y (A self) - Point.y (B self) in
  if Qeq_bool denom 0 then Ok (Line.vline (Point.x other))
  else
    g <- gradient (A self) (B self) ;;
    m <- truediv (-1) g ;;
    Ok (Line.from_point_slope_form other m).

Definition perpendicular_bisector (self : t) : result Line.t :=
  m <- midpoint self ;; perpendicular self m.

(** [median(other)]: the segment from the given point to the midpoint. *)
Definition median (self : t) (other : Point.t) : result t :=
  m <- midpoint self ;; Ok (mk other m).

End Segment.

(** ** Polygon: the ordered tuple of its vertices *)

Module Polygon.

(** [unpack(self)]: the field values [A], [B], [C], ... in order. *)
Definition t : Set := list Point.t.

(** [points[1:] + points] *)
Definition rotated {X : Type} (l : list X) : list X := tl l ++ l.

(** [segments()]: [Segment] mapped over [points] and [points[1:] + points],
    stopping with the shorter. *)
Definition segments (self : t) : list Segment.t :=
  map (fun pq => Segment.mk (fst pq) (snd pq)) (combine self (rotated self)).

Definition perpendicular_bisectors (self : t) : result (list Line.t) :=
  mapM Segment.perpendicular_bisector (segments self).

Definition medians (self : t) : result (list Segment.t) :=
  let segments := segments self in
  mapM (fun ps => Segment.median (snd ps) (fst ps))
       (combine self (rotated segments)).

Definition perpendicular_heights (self : t) : result (list Line.t) :=
  let segments := segments self in
  mapM (fun ps => Segment.perpendicular (snd ps) (fst ps))
       (combine self (rotated segments)).

(** [area()]: the shoelace formula. *)
Definition area (self : t) : Q :=
  Qabs (fold_right Qplus 0
          (map (fun pq => Point.x (fst pq) * Point.y (snd pq)
                          - Point.y (fst pq) * Point.x (snd pq))
               (combine self (rotated self)))) / 2.

Definition centroid (self : t) : result Point.t :=
  m <- midpoint self ;; Point.of_args m.

(** [assert len(unpack(self)) == 3] *)
Definition assert_triangle (self : t) : result unit :=
  if Nat.eqb (List.length self) 3 then Ok tt else Raise AssertionError.

(** [a, b = lines[:2]; return a & b] *)
Definition meet_first_two (lines : list Line.t) : result Line.meet :=
  match firstn 2 lines with
  | [a; b] => Line.intersect a b
  | _ => Raise ValueError
  end.

Definition circumcenter (self : t) : result Line.meet :=
  _ <- assert_triangle self ;;
  lines <- perpendicular_bisectors self ;;
  meet_first_two lines.

Definition orthocenter (self : t) : result Line.meet :=
  _ <- assert_triangle self ;;
  lines <- perpendicular_heights self ;;
  meet_first_two lines.

(** [euler()]: the Euler line of a triangle. *)
Definition euler (self : t) : result Line.t :=
  _ <- assert_triangle self ;;
  o <- circumcenter self ;;
  g <- centroid self ;;
  Line.from_points_dyn o g.

(** [perimeter()]: the sum of the edge lengths, closing edge included. *)
Definition perimeter (self : t) : R :=
  fold_right Rplus 0%R
    (map (fun pq => dist (fst pq) (snd pq)) (combine self (rotated self))).

End Polygon.

(** ** The doctests of [geometry/main.py], replayed on the model *)

Definition pt (u v : Z) : Point.t := Point.mk (inject_Z u) (inject_Z v).

(** Same coefficients, as the printed doctest results are compared. *)
Definition line_same (l m : Line.t) : bool :=
  Qeq_bool (Line.a l) (Line.a m) && Qeq_bool (Line.b l) (Line.b m)
  && Qeq_bool (Line.c l) (Line.c m).

Definition returns_point (r : result Point.t) (p : Point.t) : bool :=
  match r with
  | Ok q => Point.eqb q p
  | Raise _ => false
  end.

Definition returns_line (r : result Line.t) (l : Line.t) : bool :=
  match r with
  | Ok m => line_same m l
  | Raise _ => false
  end.

Definition meets_in_point (r : result Line.meet) (p : Point.t) : bool :=
  match r with
  | Ok (Line.APoint q) => Point.eqb q p
  | _ => false
  end.

Definition doc_A : Point.t := pt 2 12.
Definition doc_O : Point.t := pt 0 0.
Definition doc_B : Point.t := pt 10 0.
Definition doc_t : Polygon.t := [doc_A; doc_O; doc_B].

(** The doctest lines [y = 3x + 2] and [y = -2x + 12]. *)
Definition doc_a : Line.t := Line.from_slope_intercept_form 3 2.
Definition doc_b : Line.t := Line.from_slope_intercept_form (-2) 12.
Definition doc_c : Line.t := Line.from_slope_intercept_form 3 1.

(** The points [circumcenter()] and [orthocenter()] compute on the doctest
    triangle, [(5, 16/3)] and [(2, 4/3)] as unreduced fractions. *)
Definition doc_circumcenter : Point.t :=
  Eval vm_compute in
    match Polygon.circumcenter doc_t with
    | Ok (Line.APoint p) => p
    | _ => doc_O
    end.

Definition doc_orthocenter : Point.t :=
  Eval vm_compute in
    match Polygon.orthocenter doc_t with
    | Ok (Line.APoint p) => p
    | _ => doc_O
    end.

(** ** Notions used to state the properties *)

(** A segment with equal abscissas and different ordinates. *)
Definition is_vertical (s : Segment.t) : bool :=
  Qeq_bool (Point.x (Segment.A s)) (Point.x (Segment.B s))
  && negb (Qeq_bool (Point.y (Segment.A s)) (Point.y (Segment.B s))).

(** A (non-degenerate) line is perpendicular to a segment when its normal
    vector [(a, b)] is parallel to the direction [A - B] of the segment. *)
Definition perpendicular_to (l : Line.t) (s : Segment.t) : bool :=
  negb (Qeq_bool (Line.a l) 0 && Qeq_bool (Line.b l) 0)
  && Qeq_bool
       (Line.a l * (Point.y (Segment.A s) - Point.y (Segment.B s))
        - Line.b l * (Point.x (Segment.A s) - Point.x (Segment.B s))) 0.

(** The value of the left-hand side of the general equation at a point; the
    point is exactly on the line when it is zero. *)
Definition residual (l : Line.t) (p : Point.t) : Q :=
  Line.a l * Point.x p + Line.b l * Point.y p + Line.c l.

(** The squared Euclidean distance, which stays rational. *)
Definition sqdist (p q : Point.t) : Q :=
  (Point.x p - Point.x q) * (Point.x p - Point.x q)
  + (Point.y p - Point.y q) * (Point.y p - Point.y q).

(** The line with all three coefficients multiplied by [k]. *)
Definition scale (k : Q) (l : Line.t) : Line.t :=
  Line.mk (k * Line.a l) (k * Line.b l) (k * Line.c l).

(** A point moved by the vector [(dx, dy)]. *)
Definition translate (dx dy : Q) (p : Point.t) : Point.t :=
  Point.mk (Point.x p + dx) (Point.y p + dy).

(** The vertex list started one vertex later. *)
Definition rot {X : Type} (l : list X) : list X :=
  match l with
  | [] => []
  | v :: l' => l' ++ [v]
  end.

(** The pairs that [zip(points, points[1:] + points)] yields. *)
Definition pairs {X : Type} (l : list X) : list (X * X) :=
  combine l (Polygon.rotated l).

(** The consecutive pairs of [v :: l ++ [z]]. *)
Definition chain {X : Type} (v : X) (l : list X) (z : X) : list (X * X) :=
  combine (v :: l) (l ++ [z]).

Definition flip_pair {X : Type} (t : X * X) : X * X := (snd t, fst t).

(** One term of the shoelace sum. *)
Definition cross (t : Point.t * Point.t) : Q :=
  Point.x (fst t) * Point.y (snd t) - Point.y (fst t) * Point.x (snd t).

Definition qsum (l : list Q) : Q := fold_right Qplus 0 l.

Definition rsum (l : list R) : R := fold_right Rplus 0%R l.

(** ** The binary64 reading *)

(** The functions of [geometry/main.py] that the properties below run on
    concrete floats, transcribed over [PrimFloat.float].  An integer the
    caller passes is read as the float of the same value: Python converts it
    on its first meeting with a float, and on the inputs used below every
    operation between integers has an exactly representable result. *)
Module Binary64.

Import PrimFloat.
Local Open Scope float_scope.

(** Python's [n / d]: [ZeroDivisionError] when [d == 0] (also for [-0.0]),
    the IEEE quotient otherwise. *)
Definition truediv (n d : float) : result float :=
  if d =? 0 then Raise ZeroDivisionError else Ok (n / d).

(** [EPSILON = Epsilon(1e-6)]: the float that the literal [1e-6] denotes. *)
Definition EPSILON : float := 0x1.0c6f7a0b5ed8dp-20.

(** [statistics.mean] sums its data exactly and rounds the quotient once.
    The float sum below is that value whenever its additions are exact, as
    they are on the small integers it is applied to below. *)
Definition mean (data : list float) : result float :=
  match data with
  | [] => Raise StatisticsError
  | _ => Ok (fold_right add 0 data
             / of_uint63 (Uint63.of_Z (Z.of_nat (length data))))
  end.

Module Point.

Record t : Set := mk { x : float; y : float }.

Definition unpack (p : t) : list float := [x p; y p].

Definition of_args (args : list float) : result t :=
  match args with
  | [u; v] => Ok (mk u v)
  | _ => Raise TypeError
  end.

End Point.

Definition gradient (p q : Point.t) : result float :=
  truediv (Point.y p - Point.y q) (Point.x p - Point.x q).

Definition midpoint (p : list Point.t) : result (list float) :=
  match p with
  | [] => Ok []
  | _ => mapM mean [map Point.x p; map Point.y p]
  end.

Module Line.

Record t : Set := mk { a : float; b : float; c : float }.

Inductive meet : Set :=
| APoint (p : Point.t)
| ALine (l : t)
| ANone.

(** [__contains__]: [abs(a*x + b*y + c) <= EPSILON.value]. *)
Definition contains (self : t) (point : Point.t) : bool :=
  abs (a self * Point.x point + b self * Point.y point + c self) <=? EPSILON.

Definition y (self : t) : option Point.t :=
  if b self =? 0 then None
  else Some (Point.mk 0 (- c self / b self)).

(** [slope()]: [-a / b], or [inf] when the division raises. *)
Definition slope (self : t) : float :=
  match truediv (- a self) (b self) with
  | Ok m => m
  | Raise _ => infinity
  end.

(** [intercept()]: [-c / b], or [inf] when the division raises. *)
Definition intercept (self : t) : float :=
  match truediv (- c self) (b self) with
  | Ok q => q
  | Raise _ => infinity
  end.

(** [__eq__]: float [==] on the slopes and on the intercepts; a [nan]
    compares unequal to everything, itself included. *)
Definition eqb (self other : t) : bool :=
  (slope self =? slope other) && (intercept self =? intercept other).

Definition call (self : t) (x y : option float) : result float :=
  match x, y with
  | Some x, None =>
      if b self =? 0 then Ok (- a self * x - c self)
      else truediv (- a self * x - c self) (b self)
  | None, Some y =>
      if a self =? 0 then Ok (- b self * y - c self)
      else truediv (- b self * y - c self) (a self)
  | _, _ => Raise GeometryException
  end.

Definition intersect (self other : t) : result meet :=
  let denom := b self * a other - a self * b other in
  if denom =? 0 then
    if negb (intercept self =? intercept other) then Ok ANone
    else Ok (ALine (mk (a self) (b self) (c self)))
  else
    x <- truediv (c self * b other - b self * c other) denom ;;
    y <- match y self with
         | Some _ => call self (Some x) None
         | None => call other (Some x) None
         end ;;
    Ok (APoint (Point.mk x y)).

Definition vline (x : float) : t := mk 1 0 (- x).

Definition from_point_slope_form (point : Point.t) (slope : float) : t :=
  mk slope (-1) (Point.y point - slope * Point.x point).

Definition from_points (p q : Point.t) : result t :=
  if Point.x p =? Point.x q then Ok (vline (Point.x p))
  else m <- gradient p q ;; Ok (from_point_slope_form p m).

Definition from_points_dyn (p : meet) (q : Point.t) : result t :=
  match p with
  | APoint p => from_points p q
  | ALine _ => Raise ValueError
  | ANone => Raise AttributeError
  end.

End Line.

Module Segment.

Record t : Set := mk { A : Point.t; B : Point.t }.

Definition unpack (self : t) : list Point.t := [A self; B self].

Definition midpoint (self : t) : result Point.t :=
  m <- midpoint (unpack self) ;; Point.of_args m.

Definition perpendicular (self : t) (other : Point.t) : result Line.t :=
  let denom := Point.y (A self) - Point.y (B self) in
  if denom =? 0 then Ok (Line.vline (Point.x other))
  else
    g <- gradient (A self) (B self) ;;
    m <- truediv (-1) g ;;
    Ok (Line.from_point_slope_form other m).

Definition perpendicular_bisector (self : t) : result Line.t :=
  m <- midpoint self ;; perpendicular self m.

End Segment.

Module Polygon.

Definition t : Set := list Point.t.

Definition rotated {X : Type} (l : list X) : list X := tl l ++ l.

Definition segments (self : t) : list Segment.t :=
  map (fun pq => Segment.mk (fst pq) (snd pq)) (combine self (rotated self)).

Definition perpendicular_bisectors (self : t) : result (list Line.t) :=
  mapM Segment.perpendicular_bisector (segments self).

Definition perpendicular_heights (self : t) : result (list Line.t) :=
  let segments := segments self in
  mapM (fun ps => Segment.perpendicular (snd ps) (fst ps))
       (combine self (rotated segments)).

(** [area()]: [sum] starts from [0] and adds the terms from left to
    right. *)
Definition area (self : t) : float :=
  abs (fold_left add
         (map (fun pq => Point.x (fst pq) * Point.y (snd pq)
                         - Point.y (fst pq) * Point.x (snd pq))
              (combine self (rotated self))) 0) / 2.

Definition centroid (self : t) : result Point.t :=
  m <- midpoint self ;; Point.of_args m.

Definition assert_triangle (self : t) : result unit :=
  if Nat.eqb (List.length self) 3 then Ok tt else Raise AssertionError.

Definition meet_first_two (lines : list Line.t) : result Line.meet :=
  match firstn 2 lines with
  | [a; b] => Line.intersect a b
  | _ => Raise ValueError
  end.

Definition circumcenter (self : t) : result Line.meet :=
  _ <- assert_triangle self ;;
  lines <- perpendicular_bisectors self ;;
  meet_first_two lines.

Definition orthocenter (self : t) : result Line.meet :=
  _ <- assert_triangle self ;;
  lines <- perpendicular_heights self ;;
  meet_first_two lines.

Definition euler (self : t) : result Line.t :=
  _ <- assert_triangle self ;;
  o <- circumcenter self ;;
  g <- centroid self ;;
  Line.from_points_dyn o g.

End Polygon.

(** *** Notions and inputs *)

(** The denominator [intersect] computes. *)
Definition denom (self other : Line.t) : float :=
  Line.b self * Line.a other - Line.a self * Line.b other.

(** The left-hand side of the general equation, as [__contains__] computes
    it. *)
Definition residual (l : Line.t) (p : Point.t) : float :=
  Line.a l * Point.x p + Line.b l * Point.y p + Line.c l.

(** [Line(k*a, k*b, k*c)] *)
Definition scale (k : float) (l : Line.t) : Line.t :=
  Line.mk (k * Line.a l) (k * Line.b l) (k * Line.c l).

(** A segment with equal abscissas and different ordinates. *)
Definition is_vertical (s : Segment.t) : bool :=
  (Point.x (Segment.A s) =? Point.x (Segment.B s))
  && negb (Point.y (Segment.A s) =? Point.y (Segment.B s)).

(** The doctest lines [Line(3, -1, 2)] and [Line(-2, -1, 12)]. *)
Definition doc_a : Line.t := Line.mk 3 (-1) 2.
Definition doc_b : Line.t := Line.mk (-2) (-1) 12.

(** [Line(3, -1, 1e11)], parallel to the first doctest line. *)
Definition far_line : Line.t := Line.mk 3 (-1) 1e11.



(** [Point(0, 0)] and [Point(2.0**-600, 2.0**600)]: the gradient between
    them overflows. *)
Definition origin : Point.t := Point.mk 0 0.
Definition steep_point : Point.t := Point.mk 0x1p-600 0x1p600.

(** [Point(2.0**600, 2.0**600)] *)
Definition huge_point : Point.t := Point.mk 0x1p600 0x1p600.

(** [Point(1, 0)] and [Point(8, 1e11)]. *)
Definition near_point : Point.t := Point.mk 1 0.
Definition far_point : Point.t := Point.mk 8 1e11.

(** The triangle [(0, 0), (1, 3), (2, 0)]. *)
Definition isosceles : Polygon.t := [Point.mk 0 0; Point.mk 1 3; Point.mk 2 0].

(** The triangle [(0, 0), (2.0**600, 2.0**-600), (1, 5)]: the gradient of its
    first edge, [2.0**-1200], underflows to zero. *)
Definition sliver : Polygon.t :=
  [Point.mk 0 0; Point.mk 0x1p600 0x1p-600; Point.mk 1 5].

End Binary64.

(** ** Proof automation *)

Ltac fields :=
  cbn [Point.x Point.y Segment.A Segment.B Line.a Line.b Line.c bind] in *.

(** [e' == 0] follows from [H : e == 0] when [e'] is [k * e] as a fraction. *)
Ltac by_multiple k H :=
  match type of H with
  | ?e == 0 => transitivity (k * e); [ field | rewrite H; ring ]
  end.

(** * Properties *)

(** ** Arithmetic helpers *)

Lemma truediv_ok (n d : Q) : ~ d == 0 -> truediv n d = Ok (n / d).
Proof.
  intros Hd. unfold truediv.
  destruct (Qeq_bool d 0) eqn:E; [ | reflexivity ].
  apply Qeq_bool_iff in E. contradiction.
Qed.

Lemma truediv_zero (n d : Q) : d == 0 -> truediv n d = Raise ZeroDivisionError.
Proof.
  intros Hd. unfold truediv.
  apply Qeq_bool_iff in Hd. now rewrite Hd.
Qed.

Lemma Qeq_bool_false (u v : Q) : Qeq_bool u v = false <-> ~ u == v.
Proof.
  split.
  - apply Qeq_bool_neq.
  - intros H. destruct (Qeq_bool u v) eqn:E; [ | reflexivity ].
    apply Qeq_bool_iff in E. contradiction.
Qed.

Lemma xfloat_eqb_refl (u : xfloat) : xfloat_eqb u u = true.
Proof. destruct u; simpl; [ apply Qeq_bool_refl | reflexivity ]. Qed.

(** A point that satisfies the general equation exactly is contained. *)
Lemma contains_exact (l : Line.t) (p : Point.t) :
  Line.a l * Point.x p + Line.b l * Point.y p + Line.c l == 0 ->
  Line.contains l p = true.
Proof.
  intros H. unfold Line.contains.
  apply Qle_bool_iff. rewrite H. discriminate.
Qed.

(** Conversely, containment bounds the residual of the equation. *)
Lemma contains_iff (l : Line.t) (p : Point.t) :
  Line.contains l p = true <->
  Qabs (Line.a l * Point.x p + Line.b l * Point.y p + Line.c l) <= EPSILON.
Proof. unfold Line.contains. apply Qle_bool_iff. Qed.

(** ** Line.intersect *)

(** C1, as stated, fails on the floats of the program.  For
    [Line(3, -1, 1e11)] and [Line(-2, -1, 12)] the computed denominator is
    [5], and [intersect] returns the point
    [(-19999999997.6, 40000000007.200005)]: the first line contains it,
    the second does not, its residual there being [-7.6e-06] against a
    tolerance of [1e-06]. *)
Lemma intersect_binary64_point_off_line :
  PrimFloat.eqb (Binary64.denom Binary64.far_line Binary64.doc_b)
    PrimFloat.zero = false
  /\ exists p : Binary64.Point.t,
       Binary64.Line.intersect Binary64.far_line Binary64.doc_b
       = Ok (Binary64.Line.APoint p)
       /\ Binary64.Line.contains Binary64.far_line p = true
       /\ Binary64.Line.contains Binary64.doc_b p = false
       /\ PrimFloat.ltb (Binary64.residual Binary64.doc_b p)
            (PrimFloat.opp Binary64.EPSILON) = true.
Proof.
  split; [ reflexivity | ].
  eexists. split; [ vm_compute; reflexivity | ].
  repeat split.
Qed.

(** C1, amended.  In exact arithmetic, two lines with
    [denom = b1*a2 - a1*b2] nonzero meet in a point that satisfies both
    equations exactly, so that both lines contain it; its abscissa is
    Cramer's quotient [(c1*b2 - b1*c2) / denom], and its ordinate is obtained
    by substituting that abscissa into the first line when it has a
    y-intercept and into the second line (which then has one) otherwise. *)
Theorem intersect_nonparallel_point (l1 l2 : Line.t) :
  ~ Line.b l1 * Line.a l2 - Line.a l1 * Line.b l2 == 0 ->
  exists p : Point.t,
    Line.intersect l1 l2 = Ok (Line.APoint p)
    /\ residual l1 p == 0
    /\ residual l2 p == 0
    /\ Line.contains l1 p = true
    /\ Line.contains l2 p = true
    /\ Point.x p = (Line.c l1 * Line.b l2 - Line.b l1 * Line.c l2)
                   / (Line.b l1 * Line.a l2 - Line.a l1 * Line.b l2)
    /\ (Line.y l1 <> None ->
        Line.call l1 (Some (Point.x p)) None = Ok (Point.y p)
        /\ Point.y p = (- Line.a l1 * Point.x p - Line.c l1) / Line.b l1)
    /\ (Line.y l1 = None ->
        Line.y l2 <> None
        /\ Line.call l2 (Some (Point.x p)) None = Ok (Point.y p)
        /\ Point.y p = (- Line.a l2 * Point.x p - Line.c l2) / Line.b l2).
Proof.
  destruct l1 as [a1 b1 c1], l2 as [a2 b2 c2]; simpl.
  intros Hd.
  unfold Line.intersect, Line.y, Line.call; simpl.
  rewrite (proj2 (Qeq_bool_false _ _) Hd).
  rewrite (truediv_ok _ _ Hd); simpl.
  destruct (Qeq_bool b1 0) eqn:Eb1.
  - (* the first line is vertical: substitute into the second *)
    apply Qeq_bool_iff in Eb1.
    assert (Hb2 : ~ b2 == 0).
    { intros Hb2. apply Hd. rewrite Eb1, Hb2. ring. }
    assert (Ha1 : ~ a1 == 0).
    { intros Ha1. apply Hd. rewrite Eb1, Ha1. ring. }
    rewrite (proj2 (Qeq_bool_false _ _) Hb2).
    rewrite (truediv_ok _ _ Hb2); simpl.
    eexists; split; [ reflexivity | ].
    match goal with
    | |- residual ?l ?p == 0 /\ residual ?m ?p == 0 /\ _ =>
        assert (R1 : residual l p == 0)
          by (unfold residual; simpl; rewrite Eb1; field; split; assumption);
        assert (R2 : residual m p == 0)
          by (unfold residual; simpl; field; split; assumption)
    end.
    split; [ exact R1 | ]. split; [ exact R2 | ].
    split; [ apply contains_exact, R1 | ].
    split; [ apply contains_exact, R2 | ].
    simpl.
    repeat split; try discriminate; try congruence;
      try (apply truediv_ok; assumption).
  - apply Qeq_bool_false in Eb1.
    rewrite (truediv_ok _ _ Eb1); simpl.
    eexists; split; [ reflexivity | ].
    match goal with
    | |- residual ?l ?p == 0 /\ residual ?m ?p == 0 /\ _ =>
        assert (R1 : residual l p == 0)
          by (unfold residual; simpl; field; repeat split; assumption);
        assert (R2 : residual m p == 0)
          by (unfold residual; simpl; field; repeat split; assumption)
    end.
    split; [ exact R1 | ]. split; [ exact R2 | ].
    split; [ apply contains_exact, R1 | ].
    split; [ apply contains_exact, R2 | ].
    simpl.
    repeat split; try discriminate; try congruence;
      try (apply truediv_ok; assumption).
Qed.

Lemma intersect_nonparallel_point_witness :
  ~ Line.b doc_a * Line.a doc_b - Line.a doc_a * Line.b doc_b == 0
  /\ exists p : Point.t,
    Line.intersect doc_a doc_b = Ok (Line.APoint p)
    /\ residual doc_a p == 0
    /\ residual doc_b p == 0
    /\ Line.contains doc_a p = true
    /\ Line.contains doc_b p = true
    /\ Point.x p = (Line.c doc_a * Line.b doc_b - Line.b doc_a * Line.c doc_b)
                   / (Line.b doc_a * Line.a doc_b - Line.a doc_a * Line.b doc_b)
    /\ (Line.y doc_a <> None ->
        Line.call doc_a (Some (Point.x p)) None = Ok (Point.y p)
        /\ Point.y p = (- Line.a doc_a * Point.x p - Line.c doc_a) / Line.b doc_a)
    /\ (Line.y doc_a = None ->
        Line.y doc_b <> None
        /\ Line.call doc_b (Some (Point.x p)) None = Ok (Point.y p)
        /\ Point.y p = (- Line.a doc_b * Point.x p - Line.c doc_b) / Line.b doc_b).
Proof.
  assert (H : ~ Line.b doc_a * Line.a doc_b - Line.a doc_a * Line.b doc_b == 0)
    by (vm_compute; discriminate).
  split; [ exact H | exact (intersect_nonparallel_point doc_a doc_b H) ].
Defined.


Lemma intersect_equal_slopes_cases (l1 l2 : Line.t) :
  Line.b l1 * Line.a l2 - Line.a l1 * Line.b l2 == 0 ->
  Line.intersect l1 l2 =
  if xfloat_eqb (Line.intercept l1) (Line.intercept l2)
  then Ok (Line.ALine l1) else Ok Line.ANone.
Proof.
  intros Hd. unfold Line.intersect.
  apply Qeq_bool_iff in Hd. rewrite Hd.
  destruct (xfloat_eqb (Line.intercept l1) (Line.intercept l2)); simpl;
    [ now destruct l1 | reflexivity ].
Qed.




(** ** Line constructors, equality and evaluation *)

(** C5. [vline(x)] is the triple [(1, 0, -x)] and [hline(y)] is the triple
    [(0, 0, y)]: [hline] leaves [b] at 0, so unlike the general-form
    horizontal line [(0, 1, -y)] it has no y-intercept and an infinite
    slope. *)
Theorem vline_hline_coefficients (x y : Q) :
  Line.vline x = Line.mk 1 0 (- x)
  /\ Line.hline y = Line.mk 0 0 y
  /\ Line.hline y <> Line.mk 0 1 (- y)
  /\ Line.y (Line.hline y) = None
  /\ Line.slope (Line.hline y) = Inf.
Proof.
  repeat split.
  intros H. discriminate H.
Qed.






(** C10. Two vertical lines ([b == 0], [a] nonzero) always compare equal,
    whatever their x-intercepts, because [slope()] and [intercept()] are
    [inf] for both; hence their intersection is reported as a line. *)
Theorem vertical_lines_compare_equal (l1 l2 : Line.t) :
  Line.b l1 == 0 -> ~ Line.a l1 == 0 ->
  Line.b l2 == 0 -> ~ Line.a l2 == 0 ->
  Line.slope l1 = Inf
  /\ Line.intercept l1 = Inf
  /\ Line.slope l2 = Inf
  /\ Line.intercept l2 = Inf
  /\ Line.eqb l1 l2 = true
  /\ Line.intersect l1 l2 = Ok (Line.ALine l1).
Proof.
  intros Hb1 _ Hb2 _.
  assert (S1 : Line.slope l1 = Inf)
    by (unfold Line.slope; now rewrite truediv_zero).
  assert (I1 : Line.intercept l1 = Inf)
    by (unfold Line.intercept; now rewrite truediv_zero).
  assert (S2 : Line.slope l2 = Inf)
    by (unfold Line.slope; now rewrite truediv_zero).
  assert (I2 : Line.intercept l2 = Inf)
    by (unfold Line.intercept; now rewrite truediv_zero).
  repeat split; try assumption.
  - unfold Line.eqb. now rewrite S1, I1, S2, I2.
  - rewrite intersect_equal_slopes_cases by (rewrite Hb1, Hb2; ring).
    now rewrite I1, I2.
Qed.

(** The lines [x = 1] and [x = 2]: different x-intercepts, yet equal. *)
Lemma vertical_lines_compare_equal_witness :
  option_map (Point.eqb (pt 1 0)) (Line.x (Line.vline 1)) = Some true
  /\ option_map (Point.eqb (pt 1 0)) (Line.x (Line.vline 2)) = Some false
  /\ Line.eqb (Line.vline 1) (Line.vline 2) = true
  /\ Line.intersect (Line.vline 1) (Line.vline 2)
     = Ok (Line.ALine (Line.vline 1)).
Proof.
  assert (Hb : forall u, Line.b (Line.vline u) == 0) by reflexivity.
  assert (Ha : forall u, ~ Line.a (Line.vline u) == 0)
    by (intros u; vm_compute; discriminate).
  split; [ reflexivity | ]. split; [ reflexivity | ].
  split;
    apply (vertical_lines_compare_equal (Line.vline 1) (Line.vline 2)
             (Hb 1) (Ha 1) (Hb 2) (Ha 2)).
Defined.

(** ** Lines through points, perpendiculars of segments *)

Lemma from_points_cases (p q : Point.t) :
  Line.from_points p q =
  Ok (if Qeq_bool (Point.x p) (Point.x q) then Line.vline (Point.x p)
      else Line.from_point_slope_form p
             ((Point.y p - Point.y q) / (Point.x p - Point.x q))).
Proof.
  unfold Line.from_points, gradient.
  destruct (Qeq_bool (Point.x p) (Point.x q)) eqn:E; [ reflexivity | ].
  apply Qeq_bool_false in E.
  rewrite truediv_ok; [ reflexivity | ].
  intros H. apply E. lra.
Qed.

Lemma from_points_contains_both (p q : Point.t) (l : Line.t) :
  Line.from_points p q = Ok l ->
  Line.a l * Point.x p + Line.b l * Point.y p + Line.c l == 0
  /\ Line.a l * Point.x q + Line.b l * Point.y q + Line.c l == 0.
Proof.
  rewrite from_points_cases. intros H. injection H as <-.
  destruct (Qeq_bool (Point.x p) (Point.x q)) eqn:E; simpl.
  - apply Qeq_bool_iff in E. split; lra.
  - apply Qeq_bool_false in E.
    assert (Hd : ~ Point.x p - Point.x q == 0) by (intros H; apply E; lra).
    split; field; assumption.
Qed.

(** The line [from_points] returns always has a direction. *)
Lemma from_points_nondegenerate (p q : Point.t) (l : Line.t) :
  Line.from_points p q = Ok l -> ~ (Line.a l == 0 /\ Line.b l == 0).
Proof.
  rewrite from_points_cases. intros H. injection H as <-.
  destruct (Qeq_bool (Point.x p) (Point.x q)).
  - intros [H _]. vm_compute in H. discriminate H.
  - intros [_ H]. vm_compute in H. discriminate H.
Qed.

(** C8, as stated, fails on the floats of the program.  For
    [p = (1, 0)] and [q = (8, 1e11)], [from_points(p, q)] returns
    [Line(14285714285.714285, -1, -14285714285.714285)], whose slope is the
    rounded quotient [1e11 / 7]; it contains [p], but its residual at [q] is
    [-5.7e-06], beyond the tolerance [1e-06], so [q in line] is false. *)
Lemma from_points_binary64_misses_point :
  exists l : Binary64.Line.t,
    Binary64.Line.from_points Binary64.near_point Binary64.far_point = Ok l
    /\ Binary64.Line.contains l Binary64.near_point = true
    /\ Binary64.Line.contains l Binary64.far_point = false
    /\ PrimFloat.ltb (Binary64.residual l Binary64.far_point)
         (PrimFloat.opp Binary64.EPSILON) = true.
Proof.
  eexists. split; [ vm_compute; reflexivity | ].
  repeat split.
Qed.

(** C8, amended.  In exact arithmetic, for distinct points [p], [q],
    [from_points(p, q)] returns a line, not degenerate, whose equation both
    points satisfy exactly, so that it contains both: the vertical line
    [Line(1, 0, -p.x)] when the abscissas are equal, and otherwise the line
    [Line(m, -1, p.y - m*p.x)] through [p] with slope
    [m = (p.y - q.y) / (p.x - q.x)]. *)
Theorem from_points_contains (p q : Point.t) :
  Point.eqb p q = false ->
  exists l : Line.t,
    Line.from_points p q = Ok l
    /\ residual l p == 0
    /\ residual l q == 0
    /\ Line.contains l p = true
    /\ Line.contains l q = true
    /\ ~ (Line.a l == 0 /\ Line.b l == 0)
    /\ (Point.x p == Point.x q ->
        l = Line.mk 1 0 (- Point.x p) /\ Line.slope l = Inf)
    /\ (~ Point.x p == Point.x q ->
        l = Line.mk ((Point.y p - Point.y q) / (Point.x p - Point.x q)) (-1)
              (Point.y p
               - (Point.y p - Point.y q) / (Point.x p - Point.x q) * Point.x p)
        /\ xfloat_eqb (Line.slope l)
             (Finite ((Point.y p - Point.y q) / (Point.x p - Point.x q)))
           = true).
Proof.
  intros _.
  destruct (Line.from_points p q) as [l | e] eqn:E;
    [ | rewrite from_points_cases in E; discriminate E ].
  exists l. split; [ reflexivity | ].
  destruct (from_points_contains_both _ _ _ E) as [Hp Hq].
  split; [ exact Hp | ]. split; [ exact Hq | ].
  split; [ now apply contains_exact | ].
  split; [ now apply contains_exact | ].
  split; [ exact (from_points_nondegenerate _ _ _ E) | ].
  rewrite from_points_cases in E. injection E as <-.
  destruct (Qeq_bool (Point.x p) (Point.x q)) eqn:Ex.
  - apply Qeq_bool_iff in Ex.
    split; [ intros _; split; reflexivity | ].
    intros H. contradiction.
  - apply Qeq_bool_false in Ex.
    split; [ intros H; contradiction | ].
    intros _. split; [ reflexivity | ].
    unfold Line.from_point_slope_form, Line.slope, truediv; simpl.
    apply Qeq_bool_iff. field. intros H. apply Ex. lra.
Qed.

Lemma from_points_contains_witness :
  exists l : Line.t,
    Line.from_points doc_A doc_B = Ok l
    /\ residual l doc_A == 0
    /\ residual l doc_B == 0
    /\ Line.contains l doc_A = true
    /\ Line.contains l doc_B = true
    /\ ~ (Line.a l == 0 /\ Line.b l == 0)
    /\ (Point.x doc_A == Point.x doc_B ->
        l = Line.mk 1 0 (- Point.x doc_A) /\ Line.slope l = Inf)
    /\ (~ Point.x doc_A == Point.x doc_B ->
        l = Line.mk
              ((Point.y doc_A - Point.y doc_B) / (Point.x doc_A - Point.x doc_B))
              (-1)
              (Point.y doc_A
               - (Point.y doc_A - Point.y doc_B)
                 / (Point.x doc_A - Point.x doc_B) * Point.x doc_A)
        /\ xfloat_eqb (Line.slope l)
             (Finite ((Point.y doc_A - Point.y doc_B)
                      / (Point.x doc_A - Point.x doc_B)))
           = true).
Proof. apply (from_points_contains doc_A doc_B). reflexivity. Defined.

(** The guard of [Segment.perpendicular] covers the horizontal segment. *)
Lemma perpendicular_horizontal (s : Segment.t) (p : Point.t) :
  Point.y (Segment.A s) == Point.y (Segment.B s) ->
  Segment.perpendicular s p = Ok (Line.vline (Point.x p)).
Proof.
  intros H. unfold Segment.perpendicular.
  assert (E : Qeq_bool (Point.y (Segment.A s) - Point.y (Segment.B s)) 0 = true)
    by (apply Qeq_bool_iff; lra).
  now rewrite E.
Qed.

Lemma segment_midpoint_ok (s : Segment.t) :
  Segment.midpoint s =
  Ok (Point.mk
        ((Point.x (Segment.A s) + (Point.x (Segment.B s) + 0)) / inject_Z 2)
        ((Point.y (Segment.A s) + (Point.y (Segment.B s) + 0)) / inject_Z 2)).
Proof. reflexivity. Qed.

(** Away from the guard, a vertical segment makes [gradient] raise, and the
    exception leaves [Segment.perpendicular]. *)
Lemma perpendicular_zero_division (s : Segment.t) (p : Point.t) :
  Point.x (Segment.A s) == Point.x (Segment.B s) ->
  ~ Point.y (Segment.A s) == Point.y (Segment.B s) ->
  gradient (Segment.A s) (Segment.B s) = Raise ZeroDivisionError
  /\ Segment.perpendicular s p = Raise ZeroDivisionError.
Proof.
  intros Hx Hy.
  assert (Hg : gradient (Segment.A s) (Segment.B s) = Raise ZeroDivisionError).
  { unfold gradient. apply truediv_zero. lra. }
  split; [ exact Hg | ].
  unfold Segment.perpendicular.
  assert (E : Qeq_bool (Point.y (Segment.A s) - Point.y (Segment.B s)) 0
              = false)
    by (apply Qeq_bool_false; intros H; apply Hy; lra).
  rewrite E, Hg. reflexivity.
Qed.

(** C9. On a vertical segment (equal abscissas, different ordinates)
    [Segment.perpendicular], and with it [perpendicular_bisector], raises
    [ZeroDivisionError]: the guard tests only [A.y - B.y], and [gradient]
    then divides by [A.x - B.x = 0]. *)
Theorem perpendicular_vertical_raises (s : Segment.t) (p : Point.t) :
  Point.x (Segment.A s) == Point.x (Segment.B s) ->
  ~ Point.y (Segment.A s) == Point.y (Segment.B s) ->
  gradient (Segment.A s) (Segment.B s) = Raise ZeroDivisionError
  /\ Segment.perpendicular s p = Raise ZeroDivisionError
  /\ Segment.perpendicular_bisector s = Raise ZeroDivisionError.
Proof.
  intros Hx Hy.
  split; [ apply (perpendicular_zero_division s p Hx Hy) | ].
  split; [ apply (perpendicular_zero_division s p Hx Hy) | ].
  unfold Segment.perpendicular_bisector.
  rewrite segment_midpoint_ok. cbn [bind].
  apply (perpendicular_zero_division s _ Hx Hy).
Qed.

(** The vertical segment of the doctests, from [(1, 2)] to [(1, 3)]. *)
Lemma perpendicular_vertical_raises_witness :
  gradient (pt 1 2) (pt 1 3) = Raise ZeroDivisionError
  /\ Segment.perpendicular (Segment.mk (pt 1 2) (pt 1 3)) (pt 0 0)
     = Raise ZeroDivisionError
  /\ Segment.perpendicular_bisector (Segment.mk (pt 1 2) (pt 1 3))
     = Raise ZeroDivisionError.
Proof.
  apply (perpendicular_vertical_raises (Segment.mk (pt 1 2) (pt 1 3)) (pt 0 0)).
  - reflexivity.
  - vm_compute. discriminate.
Defined.

(** ** Lists: comprehensions, [zip], and [l[1:] + l] *)

Section ListFacts.

Local Open Scope nat_scope.

Context {X Y : Type}.

Lemma nth_error_combine (l : list X) (l' : list Y) (i : nat) :
  nth_error (combine l l') i =
  match nth_error l i, nth_error l' i with
  | Some u, Some v => Some (u, v)
  | _, _ => None
  end.
Proof.
  revert l' i. induction l as [| u l IH]; intros l' i.
  - destruct i; reflexivity.
  - destruct l' as [| v l'].
    + destruct i; simpl; [ reflexivity | ].
      now destruct (nth_error l i).
    + destruct i; simpl; [ reflexivity | apply IH ].
Qed.

(** Position [i] of [l[1:] + l] holds element [(i + 1) mod len(l)] of [l]. *)
Lemma nth_error_rotated (l : list X) (i : nat) :
  i < length l ->
  nth_error (Polygon.rotated l) i = nth_error l ((i + 1) mod length l).
Proof.
  intros Hi. unfold Polygon.rotated.
  destruct (Nat.eq_dec (i + 1) (length l)) as [E | E].
  - rewrite nth_error_app2 by (rewrite length_tl; lia).
    rewrite length_tl, E, Nat.Div0.mod_same.
    f_equal. lia.
  - rewrite nth_error_app1 by (rewrite length_tl; lia).
    rewrite Nat.mod_small by lia.
    rewrite <- nth_error_S. f_equal. lia.
Qed.

Lemma length_rotated (l : list X) :
  length (Polygon.rotated l) = length l + (length l - 1).
Proof. unfold Polygon.rotated. rewrite length_app, length_tl. lia. Qed.

Lemma mapM_length (f : X -> result Y) (l : list X) (ls : list Y) :
  mapM f l = Ok ls -> length ls = length l.
Proof.
  revert ls. induction l as [| u l IH]; simpl; intros ls H.
  - now injection H as <-.
  - destruct (f u) as [w | e]; simpl in H; [ | discriminate H ].
    destruct (mapM f l) as [ws | e]; simpl in H; [ | discriminate H ].
    injection H as <-. simpl. f_equal. now apply IH.
Qed.

Lemma mapM_nth_error (f : X -> result Y) (l : list X) (ls : list Y) :
  mapM f l = Ok ls ->
  forall i u, nth_error l i = Some u ->
              exists w, nth_error ls i = Some w /\ f u = Ok w.
Proof.
  revert ls. induction l as [| v l IH]; simpl; intros ls H i u Hu.
  - destruct i; discriminate Hu.
  - destruct (f v) as [w | e] eqn:Ev; simpl in H; [ | discriminate H ].
    destruct (mapM f l) as [ws | e]; simpl in H; [ | discriminate H ].
    injection H as <-.
    destruct i as [| i]; simpl in *.
    + injection Hu as <-. now exists w.
    + now apply IH.
Qed.

(** A comprehension returns as soon as its body returns on every element. *)
Lemma mapM_total (f : X -> result Y) (l : list X) :
  (forall u, In u l -> exists w, f u = Ok w) ->
  exists ls, mapM f l = Ok ls.
Proof.
  induction l as [| v l IH]; simpl; intros H.
  - now exists [].
  - destruct (H v) as [w Hw]; [ now left | ].
    destruct IH as [ws Hws]; [ intros u Hu; apply H; now right | ].
    exists (w :: ws). now rewrite Hw, Hws.
Qed.

End ListFacts.

(** ** Perpendiculars and the heights of a polygon *)

Lemma gradient_ok (p q : Point.t) :
  ~ Point.x p == Point.x q ->
  gradient p q = Ok ((Point.y p - Point.y q) / (Point.x p - Point.x q)).
Proof.
  intros H. unfold gradient. apply truediv_ok. intros E. apply H. lra.
Qed.

Lemma quotient_nonzero (n d : Q) : ~ n == 0 -> ~ d == 0 -> ~ n / d == 0.
Proof.
  intros Hn Hd H. apply Hn.
  setoid_replace n with (n / d * d) by (field; assumption).
  rewrite H. ring.
Qed.

(** What [Segment.perpendicular] returns on a segment that is not horizontal
    (and, so that [gradient] returns, not vertical). *)
Lemma perpendicular_general (s : Segment.t) (p : Point.t) :
  ~ Point.y (Segment.A s) == Point.y (Segment.B s) ->
  ~ Point.x (Segment.A s) == Point.x (Segment.B s) ->
  Segment.perpendicular s p =
  Ok (Line.from_point_slope_form p
        (-1 / ((Point.y (Segment.A s) - Point.y (Segment.B s))
               / (Point.x (Segment.A s) - Point.x (Segment.B s))))).
Proof.
  intros Hy Hx. unfold Segment.perpendicular.
  assert (E : Qeq_bool (Point.y (Segment.A s) - Point.y (Segment.B s)) 0
              = false)
    by (apply Qeq_bool_false; intros H; apply Hy; lra).
  rewrite E, (gradient_ok _ _ Hx); simpl.
  rewrite truediv_ok; [ reflexivity | ].
  apply quotient_nonzero; intros H; [ apply Hy | apply Hx ]; lra.
Qed.

(** The three ways a call of [Segment.perpendicular] can go. *)
Lemma perpendicular_cases (s : Segment.t) (p : Point.t) :
  (Point.y (Segment.A s) == Point.y (Segment.B s)
   /\ Segment.perpendicular s p = Ok (Line.vline (Point.x p)))
  \/ (~ Point.y (Segment.A s) == Point.y (Segment.B s)
      /\ ~ Point.x (Segment.A s) == Point.x (Segment.B s)
      /\ Segment.perpendicular s p =
         Ok (Line.from_point_slope_form p
               (-1 / ((Point.y (Segment.A s) - Point.y (Segment.B s))
                      / (Point.x (Segment.A s) - Point.x (Segment.B s))))))
  \/ (is_vertical s = true
      /\ Segment.perpendicular s p = Raise ZeroDivisionError).
Proof.
  destruct (Qeq_dec (Point.y (Segment.A s)) (Point.y (Segment.B s))) as [Hy | Hy].
  - left. split; [ exact Hy | now apply perpendicular_horizontal ].
  - right.
    destruct (Qeq_dec (Point.x (Segment.A s)) (Point.x (Segment.B s)))
      as [Hx | Hx].
    + right. split.
      * unfold is_vertical. apply andb_true_intro. split.
        -- now apply Qeq_bool_iff.
        -- apply negb_true_iff. now apply Qeq_bool_false.
      * now apply perpendicular_zero_division.
    + left. split; [ exact Hy | ]. split; [ exact Hx | ].
      now apply perpendicular_general.
Qed.

(** Whenever [Segment.perpendicular] returns, the line passes through the
    given point and is perpendicular to the segment. *)
Lemma perpendicular_spec (s : Segment.t) (p : Point.t) (l : Line.t) :
  Segment.perpendicular s p = Ok l ->
  Line.a l * Point.x p + Line.b l * Point.y p + Line.c l == 0
  /\ perpendicular_to l s = true.
Proof.
  intros H.
  destruct (perpendicular_cases s p) as [[Hy E] | [(Hy & Hx & E) | [_ E]]];
    rewrite E in H; [ | | discriminate H ]; injection H as <-;
    unfold perpendicular_to; simpl.
  - split; [ ring | ]. apply Qeq_bool_iff. lra.
  - assert (Hdy : ~ Point.y (Segment.A s) - Point.y (Segment.B s) == 0)
      by (intros H; apply Hy; lra).
    assert (Hdx : ~ Point.x (Segment.A s) - Point.x (Segment.B s) == 0)
      by (intros H; apply Hx; lra).
    split; [ ring | ].
    change (Qeq_bool (-1) 0) with false. rewrite andb_false_r; simpl.
    apply Qeq_bool_iff. field. split; assumption.
Qed.

Lemma perpendicular_returns (s : Segment.t) (p : Point.t) :
  is_vertical s = false -> exists l, Segment.perpendicular s p = Ok l.
Proof.
  intros Hv.
  destruct (perpendicular_cases s p) as [[_ E] | [(_ & _ & E) | [Hv' _]]];
    [ eexists; exact E | eexists; exact E | congruence ].
Qed.

Section PolygonEdges.

Local Open Scope nat_scope.

Variable ps : Polygon.t.

Lemma segments_length : length (Polygon.segments ps) = length ps.
Proof.
  unfold Polygon.segments.
  rewrite length_map, length_combine, length_rotated. lia.
Qed.

(** Edge [i] runs from vertex [i] to vertex [(i + 1) mod n]. *)
Lemma segments_nth (i : nat) :
  i < length ps ->
  exists p q,
    nth_error ps i = Some p
    /\ nth_error ps ((i + 1) mod length ps) = Some q
    /\ nth_error (Polygon.segments ps) i = Some (Segment.mk p q).
Proof.
  intros Hi.
  destruct (nth_error ps i) as [p |] eqn:Ep;
    [ | apply nth_error_None in Ep; lia ].
  assert (Hj : (i + 1) mod length ps < length ps)
    by (apply Nat.mod_upper_bound; lia).
  destruct (nth_error ps ((i + 1) mod length ps)) as [q |] eqn:Eq;
    [ | apply nth_error_None in Eq; lia ].
  exists p, q. repeat split.
  unfold Polygon.segments.
  rewrite nth_error_map, nth_error_combine, nth_error_rotated by exact Hi.
  now rewrite Ep, Eq.
Qed.

(** The [i]-th pair that [perpendicular_heights] (and [medians]) iterates
    over: vertex [i] with edge [(i + 1) mod n]. *)
Lemma heights_pairs_nth (i : nat) :
  i < length ps ->
  exists p q r,
    nth_error ps i = Some p
    /\ nth_error ps ((i + 1) mod length ps) = Some q
    /\ nth_error ps ((i + 2) mod length ps) = Some r
    /\ nth_error (Polygon.segments ps) ((i + 1) mod length ps)
       = Some (Segment.mk q r)
    /\ nth_error (combine ps (Polygon.rotated (Polygon.segments ps))) i
       = Some (p, Segment.mk q r).
Proof.
  intros Hi.
  destruct (segments_nth i Hi) as (p & _ & Ep & _ & _).
  assert (Hj : (i + 1) mod length ps < length ps)
    by (apply Nat.mod_upper_bound; lia).
  destruct (segments_nth _ Hj) as (q & r & Eq & Er & Es).
  rewrite Nat.Div0.add_mod_idemp_l in Er.
  replace (i + 1 + 1) with (i + 2) in Er by lia.
  exists p, q, r. repeat split; try assumption.
  rewrite nth_error_combine, nth_error_rotated
    by (rewrite segments_length; exact Hi).
  now rewrite segments_length, Ep, Es.
Qed.

End PolygonEdges.


(** A polygon with a vertical edge: the comprehension aborts with the
    exception of [Segment.perpendicular]. *)
Example heights_of_right_triangle_raise :
  Polygon.perpendicular_heights [pt 0 0; pt 0 1; pt 1 0]
  = Raise ZeroDivisionError.
Proof. reflexivity. Qed.

(** No edge of the triangle [(0, 0), (2.0**600, 2.0**-600), (1, 5)] is
    vertical, yet on the floats of the program the call raises: the gradient
    of the first edge underflows to zero and [-1 / gradient] divides by it.
    That a polygon without vertical edge has its heights returned is
    therefore a fact of exact arithmetic only. *)
Example heights_binary64_underflow_raise :
  existsb Binary64.is_vertical (Binary64.Polygon.segments Binary64.sliver)
  = false
  /\ Binary64.Polygon.perpendicular_heights Binary64.sliver
     = Raise ZeroDivisionError.
Proof. repeat split. Qed.



(** ** Triangle centres and the Euler line *)

(** When [intersect] returns a point, the two lines are not parallel and the
    point satisfies both equations exactly. *)
Lemma intersect_point_exact (l1 l2 : Line.t) (p : Point.t) :
  Line.intersect l1 l2 = Ok (Line.APoint p) ->
  ~ Line.b l1 * Line.a l2 - Line.a l1 * Line.b l2 == 0
  /\ Line.a l1 * Point.x p + Line.b l1 * Point.y p + Line.c l1 == 0
  /\ Line.a l2 * Point.x p + Line.b l2 * Point.y p + Line.c l2 == 0.
Proof.
  destruct l1 as [a1 b1 c1], l2 as [a2 b2 c2].
  unfold Line.intersect, Line.y, Line.call; simpl.
  destruct (Qeq_bool (b1 * a2 - a1 * b2) 0) eqn:Ed.
  - destruct (negb _); discriminate.
  - apply Qeq_bool_false in Ed. rewrite (truediv_ok _ _ Ed); simpl.
    destruct (Qeq_bool b1 0) eqn:Eb1.
    + apply Qeq_bool_iff in Eb1.
      assert (Hb2 : ~ b2 == 0).
      { intros Hb2. apply Ed. rewrite Eb1, Hb2. ring. }
      assert (Ha1 : ~ a1 == 0).
      { intros Ha1. apply Ed. rewrite Eb1, Ha1. ring. }
      rewrite (proj2 (Qeq_bool_false _ _) Hb2), (truediv_ok _ _ Hb2); simpl.
      intros H. injection H as <-. simpl.
      split; [ exact Ed | ]. split.
      * rewrite Eb1. field. split; assumption.
      * field. split; assumption.
    + apply Qeq_bool_false in Eb1. rewrite (truediv_ok _ _ Eb1); simpl.
      intros H. injection H as <-. simpl.
      split; [ exact Ed | ]. split; field; repeat split; assumption.
Qed.

(** Two non-parallel lines have at most one common point. *)
Lemma common_point_unique (a1 b1 c1 a2 b2 c2 x y x' y' : Q) :
  ~ b1 * a2 - a1 * b2 == 0 ->
  a1 * x + b1 * y + c1 == 0 -> a2 * x + b2 * y + c2 == 0 ->
  a1 * x' + b1 * y' + c1 == 0 -> a2 * x' + b2 * y' + c2 == 0 ->
  x == x' /\ y == y'.
Proof.
  intros Hd H1 H2 H1' H2'.
  assert (Hx : (b1 * a2 - a1 * b2) * (x - x') == 0).
  { transitivity
      (b1 * ((a2 * x + b2 * y + c2) - (a2 * x' + b2 * y' + c2))
       - b2 * ((a1 * x + b1 * y + c1) - (a1 * x' + b1 * y' + c1)));
      [ ring | ].
    rewrite H1, H2, H1', H2'. ring. }
  assert (Hy : (b1 * a2 - a1 * b2) * (y - y') == 0).
  { transitivity
      (a2 * ((a1 * x + b1 * y + c1) - (a1 * x' + b1 * y' + c1))
       - a1 * ((a2 * x + b2 * y + c2) - (a2 * x' + b2 * y' + c2)));
      [ ring | ].
    rewrite H1, H2, H1', H2'. ring. }
  apply Qmult_integral in Hx, Hy.
  split; [ destruct Hx as [Hx | Hx] | destruct Hy as [Hy | Hy] ];
    solve [ contradiction | lra ].
Qed.

(** If [(a, b)] is parallel to a nonzero [(dx, dy)], whatever is orthogonal
    to [(dx, dy)] is orthogonal to [(a, b)]. *)
Lemma parallel_orthogonal (a b dx dy wx wy : Q) :
  a * dy - b * dx == 0 ->
  ~ (dx == 0 /\ dy == 0) ->
  dx * wx + dy * wy == 0 ->
  a * wx + b * wy == 0.
Proof.
  intros Hpar Hd Hw.
  assert (Hx : (a * wx + b * wy) * dx == 0).
  { transitivity (a * (dx * wx + dy * wy) - wy * (a * dy - b * dx));
      [ ring | ].
    rewrite Hpar, Hw. ring. }
  assert (Hy : (a * wx + b * wy) * dy == 0).
  { transitivity (b * (dx * wx + dy * wy) + wx * (a * dy - b * dx));
      [ ring | ].
    rewrite Hpar, Hw. ring. }
  apply Qmult_integral in Hx, Hy.
  destruct Hx as [Hx | Hx]; [ exact Hx | ].
  destruct Hy as [Hy | Hy]; [ exact Hy | ].
  exfalso. apply Hd. now split.
Qed.

Lemma perpendicular_to_iff (l : Line.t) (s : Segment.t) :
  perpendicular_to l s = true <->
  ~ (Line.a l == 0 /\ Line.b l == 0)
  /\ Line.a l * (Point.y (Segment.A s) - Point.y (Segment.B s))
     - Line.b l * (Point.x (Segment.A s) - Point.x (Segment.B s)) == 0.
Proof.
  unfold perpendicular_to.
  rewrite andb_true_iff, negb_true_iff, andb_false_iff, Qeq_bool_iff,
    !Qeq_bool_false.
  split; intros [H1 H2]; (split; [ | exact H2 ]).
  - intros [Ha Hb]. destruct H1; contradiction.
  - destruct (Qeq_dec (Line.a l) 0) as [Ha | Ha]; [ | now left ].
    right. intros Hb. apply H1. now split.
Qed.

Section Triangle.

Variables v0 v1 v2 : Point.t.

Let tri : Polygon.t := [v0; v1; v2].

Lemma triangle_centroid :
  Polygon.centroid tri =
  Ok (Point.mk
        ((Point.x v0 + (Point.x v1 + (Point.x v2 + 0))) / 3)
        ((Point.y v0 + (Point.y v1 + (Point.y v2 + 0))) / 3)).
Proof. reflexivity. Qed.

Lemma triangle_circumcenter :
  Polygon.circumcenter tri =
  (b0 <- Segment.perpendicular_bisector (Segment.mk v0 v1) ;;
   b1 <- Segment.perpendicular_bisector (Segment.mk v1 v2) ;;
   b2 <- Segment.perpendicular_bisector (Segment.mk v2 v0) ;;
   Line.intersect b0 b1).
Proof.
  unfold Polygon.circumcenter, Polygon.perpendicular_bisectors; simpl.
  destruct (Segment.perpendicular_bisector (Segment.mk v0 v1)); simpl;
    [ | reflexivity ].
  destruct (Segment.perpendicular_bisector (Segment.mk v1 v2)); simpl;
    [ | reflexivity ].
  destruct (Segment.perpendicular_bisector (Segment.mk v2 v0)); reflexivity.
Qed.

Lemma triangle_orthocenter :
  Polygon.orthocenter tri =
  (h0 <- Segment.perpendicular (Segment.mk v1 v2) v0 ;;
   h1 <- Segment.perpendicular (Segment.mk v2 v0) v1 ;;
   h2 <- Segment.perpendicular (Segment.mk v0 v1) v2 ;;
   Line.intersect h0 h1).
Proof.
  unfold Polygon.orthocenter, Polygon.perpendicular_heights; simpl.
  destruct (Segment.perpendicular (Segment.mk v1 v2) v0); simpl;
    [ | reflexivity ].
  destruct (Segment.perpendicular (Segment.mk v2 v0) v1); simpl;
    [ | reflexivity ].
  destruct (Segment.perpendicular (Segment.mk v0 v1) v2); reflexivity.
Qed.

(** Non-zero area: the shoelace sum does not vanish. *)
Lemma triangle_area_nonzero :
  ~ Polygon.area tri == 0 ->
  ~ Point.x v0 * Point.y v1 - Point.y v0 * Point.x v1
    + (Point.x v1 * Point.y v2 - Point.y v1 * Point.x v2)
    + (Point.x v2 * Point.y v0 - Point.y v2 * Point.x v0) == 0.
Proof.
  intros Ha Hs. apply Ha. unfold Polygon.area, Polygon.rotated, tri.
  cbn [tl app combine map fold_right fst snd].
  setoid_replace
    (Point.x v0 * Point.y v1 - Point.y v0 * Point.x v1
     + (Point.x v1 * Point.y v2 - Point.y v1 * Point.x v2
        + (Point.x v2 * Point.y v0 - Point.y v2 * Point.x v0 + 0)))
    with 0 by lra.
  reflexivity.
Qed.

End Triangle.

(** The line [Segment.perpendicular_bisector] returns passes through the
    midpoint and is perpendicular to the segment. *)
Lemma perpendicular_bisector_spec (s : Segment.t) (l : Line.t) :
  Segment.perpendicular_bisector s = Ok l ->
  Line.a l * (Point.x (Segment.A s) + Point.x (Segment.B s))
  + Line.b l * (Point.y (Segment.A s) + Point.y (Segment.B s))
  + 2 * Line.c l == 0
  /\ perpendicular_to l s = true.
Proof.
  unfold Segment.perpendicular_bisector.
  rewrite segment_midpoint_ok. fields.
  intros H. apply perpendicular_spec in H. fields.
  destruct H as [Hon Hperp]. split; [ | exact Hperp ].
  by_multiple 2 Hon.
Qed.

(** Euler's relation [H = 3G - 2O], on whatever points [circumcenter] and
    [orthocenter] return for a triangle of nonzero area. *)
Lemma orthocenter_from_circumcenter (v0 v1 v2 o h : Point.t) :
  ~ Polygon.area [v0; v1; v2] == 0 ->
  Polygon.circumcenter [v0; v1; v2] = Ok (Line.APoint o) ->
  Polygon.orthocenter [v0; v1; v2] = Ok (Line.APoint h) ->
  Point.x h == Point.x v0 + Point.x v1 + Point.x v2 - 2 * Point.x o
  /\ Point.y h == Point.y v0 + Point.y v1 + Point.y v2 - 2 * Point.y o.
Proof.
  intros Ha Hc Ho. apply triangle_area_nonzero in Ha.
  rewrite triangle_circumcenter in Hc. rewrite triangle_orthocenter in Ho.
  destruct (Segment.perpendicular_bisector (Segment.mk v0 v1))
    as [[p0 q0 r0] |] eqn:Eb0; [ | discriminate Hc ].
  destruct (Segment.perpendicular_bisector (Segment.mk v1 v2))
    as [[p1 q1 r1] |] eqn:Eb1; [ | discriminate Hc ].
  destruct (Segment.perpendicular_bisector (Segment.mk v2 v0));
    [ | discriminate Hc ].
  destruct (Segment.perpendicular (Segment.mk v1 v2) v0)
    as [[a0 b0 c0] |] eqn:Eh0; [ | discriminate Ho ].
  destruct (Segment.perpendicular (Segment.mk v2 v0) v1)
    as [[a1 b1 c1] |] eqn:Eh1; [ | discriminate Ho ].
  destruct (Segment.perpendicular (Segment.mk v0 v1) v2);
    [ | discriminate Ho ].
  fields.
  apply perpendicular_bisector_spec in Eb0, Eb1.
  apply perpendicular_spec in Eh0, Eh1.
  apply intersect_point_exact in Hc, Ho.
  destruct Eb0 as [M0 P0], Eb1 as [M1 P1], Eh0 as [V0 Q0], Eh1 as [V1 Q1].
  apply perpendicular_to_iff in P0, P1, Q0, Q1.
  destruct P0 as [N0 P0], P1 as [N1 P1], Q0 as [_ Q0], Q1 as [_ Q1].
  destruct Hc as (_ & O0 & O1), Ho as (Hd & H0 & H1).
  destruct v0 as [x0 y0], v1 as [x1 y1], v2 as [x2 y2].
  destruct o as [ox oy], h as [hx hy]. fields.
  (* the circumcentre lies on the true bisectors of edges 0 and 1 *)
  assert (D0 : (x0 - x1) * (2 * ox - (x0 + x1))
               + (y0 - y1) * (2 * oy - (y0 + y1)) == 0).
  { apply (parallel_orthogonal _ _ p0 q0); [ lra | exact N0 | lra ]. }
  assert (D1 : (x1 - x2) * (2 * ox - (x1 + x2))
               + (y1 - y2) * (2 * oy - (y1 + y2)) == 0).
  { apply (parallel_orthogonal _ _ p1 q1); [ lra | exact N1 | lra ]. }
  (* the reflected point lies on both heights *)
  assert (T0 : a0 * (x0 + x1 + x2 - 2 * ox) + b0 * (y0 + y1 + y2 - 2 * oy)
               + c0 == 0).
  { assert (T : a0 * (x1 + x2 - 2 * ox) + b0 * (y1 + y2 - 2 * oy) == 0).
    { apply (parallel_orthogonal _ _ (x1 - x2) (y1 - y2));
        [ exact Q0 | | by_multiple (-1) D1 ].
      intros [Hx Hy]. apply Ha.
      setoid_replace x1 with x2 by lra. setoid_replace y1 with y2 by lra.
      ring. }
    lra. }
  assert (T1 : a1 * (x0 + x1 + x2 - 2 * ox) + b1 * (y0 + y1 + y2 - 2 * oy)
               + c1 == 0).
  { assert (T : a1 * (x0 + x2 - 2 * ox) + b1 * (y0 + y2 - 2 * oy) == 0).
    { apply (parallel_orthogonal _ _ (x2 - x0) (y2 - y0)); [ exact Q1 | | ].
      - intros [Hx Hy]. apply Ha.
        setoid_replace x2 with x0 by lra. setoid_replace y2 with y0 by lra.
        ring.
      - transitivity
          ((x0 - x1) * (2 * ox - (x0 + x1))
           + (y0 - y1) * (2 * oy - (y0 + y1))
           + ((x1 - x2) * (2 * ox - (x1 + x2))
              + (y1 - y2) * (2 * oy - (y1 + y2)))); [ ring | ].
        rewrite D0, D1. ring. }
    lra. }
  exact (common_point_unique _ _ _ _ _ _ _ _ _ _ Hd H0 H1 T0 T1).
Qed.

Lemma sqrt_four_times (u : R) : (0 <= u)%R -> sqrt (4 * u) = (2 * sqrt u)%R.
Proof.
  intros Hu. rewrite sqrt_mult by lra.
  replace 4%R with (2 * 2)%R by ring.
  rewrite sqrt_square by lra. reflexivity.
Qed.

(** If [h - g] is twice [g - o], then [h] is twice as far from [g] as [o]. *)
Lemma dist_doubles (g o h : Point.t) :
  Point.x h - Point.x g == 2 * (Point.x g - Point.x o) ->
  Point.y h - Point.y g == 2 * (Point.y g - Point.y o) ->
  dist g h = (2 * dist g o)%R.
Proof.
  intros Hx Hy. unfold dist.
  set (u := (Point.x g - Point.x o) * (Point.x g - Point.x o)
            + (Point.y g - Point.y o) * (Point.y g - Point.y o)).
  assert (E : (Point.x g - Point.x h) * (Point.x g - Point.x h)
              + (Point.y g - Point.y h) * (Point.y g - Point.y h)
              == 4 * u).
  { setoid_replace (Point.x g - Point.x h)
      with (- (2 * (Point.x g - Point.x o))) by lra.
    setoid_replace (Point.y g - Point.y h)
      with (- (2 * (Point.y g - Point.y o))) by lra.
    unfold u. ring. }
  rewrite (Qeq_eqR _ _ E), Q2R_mult.
  replace (Q2R 4) with 4%R by (unfold Q2R; simpl; lra).
  apply sqrt_four_times.
  replace 0%R with (Q2R 0) by (unfold Q2R; simpl; lra).
  apply Qle_Rle. unfold u. clear.
  generalize (Point.x g - Point.x o), (Point.y g - Point.y o).
  intros a b. nra.
Qed.

(** C3, as stated, fails on the floats of the program.  On the triangle
    [(0, 0), (1, 3), (2, 0)] the centroid is [(1, 1)] and the orthocenter
    [(1, 0.3333333333333333)], but the abscissa of the circumcenter is
    computed as [1.0000000000000002]: [euler()] then takes the branch of the
    non-vertical line and returns
    [Line(1501199875790166, -1, -1501199875790165)], whose residual at the
    orthocenter is [0.75].  The orthocenter is not in the Euler line. *)
Lemma euler_line_binary64_misses_orthocenter :
  exists (o h g : Binary64.Point.t) (e : Binary64.Line.t),
    Binary64.Polygon.circumcenter Binary64.isosceles
    = Ok (Binary64.Line.APoint o)
    /\ Binary64.Polygon.orthocenter Binary64.isosceles
       = Ok (Binary64.Line.APoint h)
    /\ Binary64.Polygon.centroid Binary64.isosceles = Ok g
    /\ Binary64.Polygon.euler Binary64.isosceles = Ok e
    /\ Binary64.Line.contains e h = false
    /\ PrimFloat.ltb Binary64.EPSILON (Binary64.residual e h) = true.
Proof.
  do 4 eexists.
  split; [ vm_compute; reflexivity | ].
  split; [ vm_compute; reflexivity | ].
  split; [ vm_compute; reflexivity | ].
  split; [ vm_compute; reflexivity | ].
  split; reflexivity.
Qed.

(** C3, amended.  In exact arithmetic, on a triangle of nonzero area whose
    [circumcenter()] and [orthocenter()] return points, [centroid()] and
    [euler()] return too; the Euler line is the line [from_points] draws
    through circumcenter and centroid, it is not degenerate, and the
    centroid, the circumcenter and the orthocenter satisfy its equation
    exactly, so that it contains all three; and twice the distance from
    centroid to circumcenter equals the distance from centroid to
    orthocenter (exactly, hence within [EPSILON]). *)
Theorem euler_line_invariant (t : Polygon.t) (o h : Point.t) :
  length t = 3%nat ->
  ~ Polygon.area t == 0 ->
  Polygon.circumcenter t = Ok (Line.APoint o) ->
  Polygon.orthocenter t = Ok (Line.APoint h) ->
  exists (g : Point.t) (e : Line.t),
    Polygon.centroid t = Ok g
    /\ Polygon.euler t = Ok e
    /\ Line.from_points o g = Ok e
    /\ ~ (Line.a e == 0 /\ Line.b e == 0)
    /\ residual e g == 0
    /\ residual e o == 0
    /\ residual e h == 0
    /\ Line.contains e g = true
    /\ Line.contains e o = true
    /\ Line.contains e h = true
    /\ Point.x h - Point.x g == 2 * (Point.x g - Point.x o)
    /\ Point.y h - Point.y g == 2 * (Point.y g - Point.y o)
    /\ dist g h = (2 * dist g o)%R
    /\ (Rabs (2 * dist g o - dist g h) <= Q2R EPSILON)%R.
Proof.
  intros Hlen Ha Hc Ho.
  destruct t as [| v0 [| v1 [| v2 [| v3 t]]]]; try discriminate Hlen.
  destruct (orthocenter_from_circumcenter _ _ _ _ _ Ha Hc Ho) as [Hx Hy].
  rewrite triangle_centroid.
  unfold Polygon.euler. rewrite Hc, triangle_centroid.
  change (Polygon.assert_triangle [v0; v1; v2]) with (Ok tt).
  cbn [bind Line.from_points_dyn].
  set (g := Point.mk
              ((Point.x v0 + (Point.x v1 + (Point.x v2 + 0))) / 3)
              ((Point.y v0 + (Point.y v1 + (Point.y v2 + 0))) / 3)).
  destruct (Line.from_points o g) as [e | x] eqn:Ee;
    [ | rewrite from_points_cases in Ee; discriminate Ee ].
  destruct (from_points_contains_both _ _ _ Ee) as [Eo Eg].
  assert (Gx : Point.x h - Point.x g == 2 * (Point.x g - Point.x o))
    by (rewrite Hx; unfold g; fields; field).
  assert (Gy : Point.y h - Point.y g == 2 * (Point.y g - Point.y o))
    by (rewrite Hy; unfold g; fields; field).
  assert (Eh : residual e h == 0).
  { unfold residual.
    setoid_replace (Point.x h) with (3 * Point.x g - 2 * Point.x o) by lra.
    setoid_replace (Point.y h) with (3 * Point.y g - 2 * Point.y o) by lra.
    transitivity
      (3 * (Line.a e * Point.x g + Line.b e * Point.y g + Line.c e)
       - 2 * (Line.a e * Point.x o + Line.b e * Point.y o + Line.c e));
      [ ring | ].
    rewrite Eo, Eg. ring. }
  assert (Hn := from_points_nondegenerate _ _ _ Ee).
  exists g, e.
  split; [ reflexivity | ]. split; [ reflexivity | ].
  split; [ exact Ee | ]. split; [ exact Hn | ].
  split; [ exact Eg | ]. split; [ exact Eo | ]. split; [ exact Eh | ].
  split; [ apply contains_exact, Eg | ].
  split; [ apply contains_exact, Eo | ].
  split; [ apply contains_exact, Eh | ].
  split; [ exact Gx | ]. split; [ exact Gy | ].
  split.
  - exact (dist_doubles g o h Gx Gy).
  - rewrite (dist_doubles g o h Gx Gy).
    replace (2 * dist g o - 2 * dist g o)%R with 0%R by ring.
    rewrite Rabs_R0. unfold Q2R, EPSILON; simpl.
    apply Rlt_le, Rmult_lt_0_compat; [ lra | ].
    apply Rinv_0_lt_compat. lra.
Qed.

Lemma euler_line_invariant_witness :
  exists (g : Point.t) (e : Line.t),
    Polygon.centroid doc_t = Ok g
    /\ Polygon.euler doc_t = Ok e
    /\ Line.from_points doc_circumcenter g = Ok e
    /\ ~ (Line.a e == 0 /\ Line.b e == 0)
    /\ residual e g == 0
    /\ residual e doc_circumcenter == 0
    /\ residual e doc_orthocenter == 0
    /\ Line.contains e g = true
    /\ Line.contains e doc_circumcenter = true
    /\ Line.contains e doc_orthocenter = true
    /\ Point.x doc_orthocenter - Point.x g
       == 2 * (Point.x g - Point.x doc_circumcenter)
    /\ Point.y doc_orthocenter - Point.y g
       == 2 * (Point.y g - Point.y doc_circumcenter)
    /\ dist g doc_orthocenter = (2 * dist g doc_circumcenter)%R
    /\ (Rabs (2 * dist g doc_circumcenter - dist g doc_orthocenter)
        <= Q2R EPSILON)%R.
Proof.
  apply (euler_line_invariant doc_t doc_circumcenter doc_orthocenter).
  - reflexivity.
  - vm_compute. discriminate.
  - vm_compute. reflexivity.
  - vm_compute. reflexivity.
Defined.

(** ** The doctests *)

Example doctest_contains :
  Line.contains doc_a (pt 0 0) = false
  /\ Line.contains doc_a (pt (-2) (-4)) = true.
Proof. split; reflexivity. Qed.

Example doctest_intersect :
  meets_in_point (Line.intersect doc_a doc_b) (pt 2 8) = true
  /\ Line.intersect doc_a doc_a = Ok (Line.ALine (Line.mk 3 (-1) 2))
  /\ Line.intersect doc_a doc_c = Ok Line.ANone.
Proof. repeat split. Qed.

Example doctest_vertical :
  Line.from_points (pt 1 2) (pt 1 3) = Ok (Line.mk 1 0 (-1))
  /\ Line.slope (Line.mk 1 0 (-1)) = Inf
  /\ Line.y (Line.mk 1 0 (-1)) = None
  /\ option_map (Point.eqb (pt 1 0)) (Line.x (Line.mk 1 0 (-1))) = Some true
  /\ Line.x (Line.from_slope_intercept_form 0 2) = None.
Proof. repeat split. Qed.

Example doctest_segment :
  returns_point (Segment.midpoint (Segment.mk doc_A doc_B)) (pt 6 6) = true
  /\ returns_line (Segment.line (Segment.mk doc_A doc_B))
       (Line.mk (-3 # 2) (-1) 15) = true
  /\ returns_line (Segment.perpendicular_bisector (Segment.mk doc_A doc_B))
       (Line.mk (2 # 3) (-1) 2) = true.
Proof. repeat split. Qed.

Example doctest_triangle :
  Polygon.area doc_t == 60
  /\ meets_in_point (Polygon.circumcenter doc_t) (Point.mk 5 (16 # 3)) = true
  /\ meets_in_point (Polygon.orthocenter doc_t) (Point.mk 2 (4 # 3)) = true
  /\ returns_point (Polygon.centroid doc_t) (pt 4 4) = true
  /\ returns_line (Polygon.euler doc_t) (Line.mk (4 # 3) (-1) (-4 # 3)) = true.
Proof. split; [ reflexivity | repeat split ]. Qed.

(** * Further properties of the kernel *)

(** ** Distances between points *)

Lemma Q2R_abs (q : Q) : Q2R (Qabs q) = Rabs (Q2R q).
Proof.
  apply Qabs_case; intros H.
  - rewrite Rabs_right; [ reflexivity | ].
    apply Rle_ge. rewrite <- RMicromega.Q2R_0. now apply Qle_Rle.
  - rewrite Q2R_opp, Rabs_left1; [ reflexivity | ].
    rewrite <- RMicromega.Q2R_0. now apply Qle_Rle.
Qed.

Lemma dist_sqdist (p q : Point.t) : dist p q = sqrt (Q2R (sqdist p q)).
Proof. reflexivity. Qed.

Lemma sqdist_nonneg (p q : Point.t) : 0 <= sqdist p q.
Proof.
  unfold sqdist.
  generalize (Point.x p - Point.x q), (Point.y p - Point.y q).
  intros u v. nra.
Qed.

Lemma Q2R_sqdist_nonneg (p q : Point.t) : (0 <= Q2R (sqdist p q))%R.
Proof.
  rewrite <- RMicromega.Q2R_0. apply Qle_Rle, sqdist_nonneg.
Qed.

Lemma dist_eq_of_sqdist (p q p' q' : Point.t) :
  sqdist p q == sqdist p' q' -> dist p q = dist p' q'.
Proof. intros H. rewrite !dist_sqdist. now rewrite (Qeq_eqR _ _ H). Qed.

Lemma sqdist_eq_of_dist (p q p' q' : Point.t) :
  dist p q = dist p' q' -> sqdist p q == sqdist p' q'.
Proof.
  rewrite !dist_sqdist. intros H.
  apply eqR_Qeq, sqrt_inj; auto using Q2R_sqdist_nonneg.
Qed.

Lemma dist_le_of_sqdist (p q p' q' : Point.t) :
  sqdist p q <= sqdist p' q' -> (dist p q <= dist p' q')%R.
Proof.
  intros H. rewrite !dist_sqdist. apply sqrt_le_1_alt. now apply Qle_Rle.
Qed.

Lemma sum_squares_zero (u v : Q) : u * u + v * v == 0 -> u == 0 /\ v == 0.
Proof.
  intros H.
  assert (Hu : 0 <= u * u) by nra.
  assert (Hv : 0 <= v * v) by nra.
  assert (Eu : u * u == 0) by lra.
  assert (Ev : v * v == 0) by lra.
  apply Qmult_integral in Eu, Ev. tauto.
Qed.

Lemma sqdist_zero_iff (p q : Point.t) :
  sqdist p q == 0 <-> Point.eqb p q = true.
Proof.
  unfold sqdist, Point.eqb.
  rewrite andb_true_iff, !Qeq_bool_iff.
  split.
  - intros H. apply sum_squares_zero in H. split; lra.
  - intros [Hx Hy]. rewrite Hx, Hy. ring.
Qed.

Lemma dist_zero_iff (p q : Point.t) :
  dist p q = 0%R <-> sqdist p q == 0.
Proof.
  rewrite dist_sqdist. split.
  - intros H. apply sqrt_eq_0 in H; [ | apply Q2R_sqdist_nonneg ].
    apply eqR_Qeq. now rewrite RMicromega.Q2R_0.
  - intros H. rewrite (Qeq_eqR _ _ H), RMicromega.Q2R_0. apply sqrt_0.
Qed.

(** X1. [Point.dist] between two points never raises, is symmetric and
    non-negative, and is zero exactly when the two points compare equal. *)
Theorem point_dist_symmetric_definite (p q : Point.t) :
  exists d : R,
    Point_dist p (Line.OfPoint q) = Ok d
    /\ Point_dist q (Line.OfPoint p) = Ok d
    /\ (0 <= d)%R
    /\ (d = 0%R <-> Point.eqb p q = true).
Proof.
  exists (dist p q). split; [ reflexivity | ]. split.
  - simpl. f_equal. apply dist_eq_of_sqdist. unfold sqdist. ring.
  - split; [ apply sqrt_pos | ].
    rewrite dist_zero_iff. apply sqdist_zero_iff.
Qed.

Lemma sqrt_sum_squares_triangle (a b c d : R) :
  (sqrt ((a + c) * (a + c) + (b + d) * (b + d))
   <= sqrt (a * a + b * b) + sqrt (c * c + d * d))%R.
Proof.
  remember (a * a + b * b)%R as A eqn:EA.
  remember (c * c + d * d)%R as C eqn:EC.
  assert (HA : (0 <= A)%R) by nra.
  assert (HC : (0 <= C)%R) by nra.
  assert (Hdot : (a * c + b * d <= sqrt A * sqrt C)%R).
  { rewrite <- sqrt_mult by assumption.
    apply Rle_trans with (Rabs (a * c + b * d)); [ apply Rle_abs | ].
    rewrite <- sqrt_Rsqr_abs. apply sqrt_le_1_alt.
    pose proof (Rle_0_sqr (a * d - b * c)) as Hsq.
    unfold Rsqr in *. nra. }
  apply Rsqr_incr_0_var.
  - rewrite Rsqr_sqrt by (apply Rplus_le_le_0_compat; apply Rle_0_sqr).
    unfold Rsqr.
    replace ((sqrt A + sqrt C) * (sqrt A + sqrt C))%R
      with (sqrt A * sqrt A + sqrt C * sqrt C + 2 * (sqrt A * sqrt C))%R
      by ring.
    rewrite !sqrt_sqrt by assumption.
    nra.
  - apply Rplus_le_le_0_compat; apply sqrt_pos.
Qed.

(** X2. The distance between points satisfies the triangle inequality. *)
Theorem dist_triangle_inequality (p q r : Point.t) :
  (dist p r <= dist p q + dist q r)%R.
Proof.
  unfold dist.
  rewrite !Q2R_plus, !Q2R_mult, !Q2R_minus.
  generalize (Q2R (Point.x p)), (Q2R (Point.y p)), (Q2R (Point.x q)),
    (Q2R (Point.y q)), (Q2R (Point.x r)), (Q2R (Point.y r)).
  intros px py qx qy rx ry.
  replace (px - rx)%R with ((px - qx) + (qx - rx))%R by ring.
  replace (py - ry)%R with ((py - qy) + (qy - ry))%R by ring.
  apply sqrt_sum_squares_triangle.
Qed.

(** ** Distance between a point and a line *)

Lemma rtruediv_ok (n d : R) : d <> 0%R -> rtruediv n d = Ok (n / d)%R.
Proof.
  intros H. unfold rtruediv. destruct (Req_dec_T d 0); [ contradiction | ].
  reflexivity.
Qed.

Lemma rtruediv_zero (n d : R) :
  d = 0%R -> rtruediv n d = Raise ZeroDivisionError.
Proof.
  intros H. unfold rtruediv. destruct (Req_dec_T d 0); [ | contradiction ].
  reflexivity.
Qed.

Lemma hypot_nonneg (u v : Q) : (0 <= hypot u v)%R.
Proof. apply sqrt_pos. Qed.

Lemma hypot_zero_iff (u v : Q) : hypot u v = 0%R <-> u == 0 /\ v == 0.
Proof.
  unfold hypot. split.
  - intros H. apply sqrt_eq_0 in H.
    + rewrite <- RMicromega.Q2R_0 in H. apply eqR_Qeq in H.
      now apply sum_squares_zero.
    + rewrite <- RMicromega.Q2R_0. apply Qle_Rle. nra.
  - intros [Hu Hv].
    assert (E : u * u + v * v == 0) by (rewrite Hu, Hv; ring).
    rewrite (Qeq_eqR _ _ E), RMicromega.Q2R_0. apply sqrt_0.
Qed.

Lemma cauchy_schwarz_sqrt (a b u v : R) :
  (Rabs (a * u + b * v) <= sqrt (a * a + b * b) * sqrt (u * u + v * v))%R.
Proof.
  rewrite <- sqrt_mult by nra.
  rewrite <- sqrt_Rsqr_abs. apply sqrt_le_1_alt.
  pose proof (Rle_0_sqr (a * v - b * u)) as Hsq.
  unfold Rsqr in *. nra.
Qed.

(** The two spellings of the point-to-line distance are one computation. *)
Lemma line_dist_point (l : Line.t) (p : Point.t) :
  Line.dist l (Line.OfPoint p) =
  (r <- Point_dist p (Line.OfLine l) ;; Ok (EReal r)).
Proof. reflexivity. Qed.

Lemma point_dist_line_ok (l : Line.t) (p : Point.t) :
  ~ (Line.a l == 0 /\ Line.b l == 0) ->
  Point_dist p (Line.OfLine l) =
  Ok (Rabs (Q2R (residual l p)) / hypot (Line.a l) (Line.b l))%R.
Proof.
  intros H. unfold Point_dist.
  rewrite rtruediv_ok by (rewrite hypot_zero_iff; exact H).
  now rewrite Q2R_abs.
Qed.

(** X3. The distance between a point and a line, asked of either one, raises
    [ZeroDivisionError] exactly when [a] and [b] are both zero; otherwise both
    calls return the same non-negative number, which is zero exactly when the
    point satisfies the equation of the line. *)
Theorem point_line_distance (l : Line.t) (p : Point.t) :
  (Line.a l == 0 /\ Line.b l == 0 ->
   Point_dist p (Line.OfLine l) = Raise ZeroDivisionError
   /\ Line.dist l (Line.OfPoint p) = Raise ZeroDivisionError)
  /\ (~ (Line.a l == 0 /\ Line.b l == 0) ->
      exists d : R,
        Point_dist p (Line.OfLine l) = Ok d
        /\ Line.dist l (Line.OfPoint p) = Ok (EReal d)
        /\ (0 <= d)%R
        /\ (d = 0%R <-> residual l p == 0)).
Proof.
  split; intros H.
  - assert (E : Point_dist p (Line.OfLine l) = Raise ZeroDivisionError).
    { unfold Point_dist. apply rtruediv_zero. now apply hypot_zero_iff. }
    split; [ exact E | ]. rewrite line_dist_point, E. reflexivity.
  - pose proof (point_dist_line_ok l p H) as E.
    assert (Hh : (0 < hypot (Line.a l) (Line.b l))%R).
    { destruct (hypot_nonneg (Line.a l) (Line.b l)) as [Hlt | Heq];
        [ exact Hlt | ].
      symmetry in Heq. apply hypot_zero_iff in Heq. contradiction. }
    eexists. split; [ exact E | ].
    split; [ rewrite line_dist_point, E; reflexivity | ].
    split.
    + apply Rmult_le_pos; [ apply Rabs_pos | ].
      apply Rlt_le, Rinv_0_lt_compat, Hh.
    + split.
      * intros Hz.
        apply Rmult_integral in Hz. destruct Hz as [Hz | Hz].
        -- apply eqR_Qeq. rewrite RMicromega.Q2R_0.
           destruct (Req_dec_T (Q2R (residual l p)) 0) as [E0 | E0];
             [ exact E0 | ].
           apply Rabs_no_R0 in E0. contradiction.
        -- pose proof (Rinv_0_lt_compat _ Hh). lra.
      * intros Hz. rewrite (Qeq_eqR _ _ Hz), RMicromega.Q2R_0, Rabs_R0.
        unfold Rdiv. ring.
Qed.

(** X4. The point-to-line distance is a lower bound for the distance from
    the point to any point lying exactly on the line. *)
Theorem point_line_distance_minimal (l : Line.t) (p f : Point.t) :
  ~ (Line.a l == 0 /\ Line.b l == 0) ->
  residual l f == 0 ->
  exists d : R,
    Point_dist p (Line.OfLine l) = Ok d /\ (d <= dist p f)%R.
Proof.
  intros H Hf. eexists. split; [ apply (point_dist_line_ok l p H) | ].
  assert (Hh : (0 < hypot (Line.a l) (Line.b l))%R).
  { destruct (hypot_nonneg (Line.a l) (Line.b l)) as [Hlt | Heq];
      [ exact Hlt | ].
    symmetry in Heq. apply hypot_zero_iff in Heq. contradiction. }
  assert (E : residual l p
              == Line.a l * (Point.x p - Point.x f)
                 + Line.b l * (Point.y p - Point.y f)).
  { unfold residual in *. lra. }
  rewrite (Qeq_eqR _ _ E).
  apply Rmult_le_reg_r with (hypot (Line.a l) (Line.b l)); [ exact Hh | ].
  unfold Rdiv. rewrite Rmult_assoc, Rinv_l, Rmult_1_r by lra.
  rewrite Rmult_comm. unfold hypot, dist.
  rewrite !Q2R_plus, !Q2R_mult, !Q2R_minus.
  apply cauchy_schwarz_sqrt.
Qed.

Lemma point_line_distance_minimal_witness :
  exists d : R,
    Point_dist (pt 4 4) (Line.OfLine (Line.from_slope_intercept_form 0 2))
    = Ok d
    /\ (d <= dist (pt 4 4) (pt 0 2))%R.
Proof.
  apply (point_line_distance_minimal
           (Line.from_slope_intercept_form 0 2) (pt 4 4) (pt 0 2)).
  - vm_compute. intros [_ H]. discriminate H.
  - reflexivity.
Defined.

(** ** Distance between two lines *)

Lemma slope_finite (l : Line.t) :
  ~ Line.b l == 0 -> Line.slope l = Finite (- Line.a l / Line.b l).
Proof. intros H. unfold Line.slope. now rewrite truediv_ok. Qed.

Lemma intercept_finite (l : Line.t) :
  ~ Line.b l == 0 -> Line.intercept l = Finite (- Line.c l / Line.b l).
Proof. intros H. unfold Line.intercept. now rewrite truediv_ok. Qed.

Lemma slope_inf (l : Line.t) : Line.b l == 0 -> Line.slope l = Inf.
Proof. intros H. unfold Line.slope. now rewrite truediv_zero. Qed.

Lemma intercept_inf (l : Line.t) : Line.b l == 0 -> Line.intercept l = Inf.
Proof. intros H. unfold Line.intercept. now rewrite truediv_zero. Qed.

Lemma hypot1_pos (m : Q) : (0 < hypot m 1)%R.
Proof.
  destruct (hypot_nonneg m 1) as [Hlt | Heq]; [ exact Hlt | ].
  symmetry in Heq. apply hypot_zero_iff in Heq.
  destruct Heq as [_ H]. discriminate H.
Qed.

(** The value of [Line.dist] on two lines that both have a finite slope, the
    same for both. *)
Lemma line_dist_finite (l1 l2 : Line.t) :
  ~ Line.b l1 == 0 -> ~ Line.b l2 == 0 ->
  - Line.a l1 / Line.b l1 == - Line.a l2 / Line.b l2 ->
  Line.dist l1 (Line.OfLine l2) =
  Ok (EReal (Rabs (Q2R (- Line.c l1 / Line.b l1)
                   - Q2R (- Line.c l2 / Line.b l2))
             / hypot (- Line.a l1 / Line.b l1) 1)).
Proof.
  intros H1 H2 Hm. unfold Line.dist.
  rewrite (slope_finite l1 H1), (slope_finite l2 H2),
    (intercept_finite l1 H1), (intercept_finite l2 H2).
  cbn [xfloat_eqb]. apply Qeq_bool_iff in Hm. rewrite Hm.
  cbn [negb efloat_of esub eabs ehypot1 ediv].
  destruct (Req_dec_T (hypot (- Line.a l1 / Line.b l1) 1) 0) as [E | _];
    [ | reflexivity ].
  pose proof (hypot1_pos (- Line.a l1 / Line.b l1)). lra.
Qed.

(** X5. In exact arithmetic, [Line.dist] between two lines never raises.  It
    is 0 when the slopes differ and when the lines compare equal with a
    finite slope; for two vertical lines it is [nan], whatever the gap
    between them. *)
Theorem line_line_distance (l1 l2 : Line.t) :
  (exists v : efloat, Line.dist l1 (Line.OfLine l2) = Ok v)
  /\ (xfloat_eqb (Line.slope l1) (Line.slope l2) = false ->
      Line.dist l1 (Line.OfLine l2) = Ok (EReal 0))
  /\ (Line.eqb l1 l2 = true -> ~ Line.b l1 == 0 ->
      Line.dist l1 (Line.OfLine l2) = Ok (EReal 0))
  /\ (Line.b l1 == 0 -> Line.b l2 == 0 ->
      Line.dist l1 (Line.OfLine l2) = Ok ENaN).
Proof.
  assert (Hdiff : xfloat_eqb (Line.slope l1) (Line.slope l2) = false ->
                  Line.dist l1 (Line.OfLine l2) = Ok (EReal 0)).
  { intros E. unfold Line.dist. now rewrite E. }
  assert (Hvert : Line.b l1 == 0 -> Line.b l2 == 0 ->
                  Line.dist l1 (Line.OfLine l2) = Ok ENaN).
  { intros H1 H2. unfold Line.dist.
    now rewrite (slope_inf l1 H1), (slope_inf l2 H2),
      (intercept_inf l1 H1), (intercept_inf l2 H2). }
  split; [ | split; [ exact Hdiff | split; [ | exact Hvert ] ] ].
  - destruct (xfloat_eqb (Line.slope l1) (Line.slope l2)) eqn:E;
      [ | eexists; now apply Hdiff ].
    destruct (Qeq_dec (Line.b l1) 0) as [H1 | H1];
      destruct (Qeq_dec (Line.b l2) 0) as [H2 | H2].
    + eexists. now apply Hvert.
    + rewrite (slope_inf l1 H1), (slope_finite l2 H2) in E. discriminate E.
    + rewrite (slope_finite l1 H1), (slope_inf l2 H2) in E. discriminate E.
    + rewrite (slope_finite l1 H1), (slope_finite l2 H2) in E.
      apply Qeq_bool_iff in E.
      eexists. now apply line_dist_finite.
  - intros E H1. unfold Line.eqb in E. apply andb_true_iff in E.
    destruct E as [Es Ei].
    assert (H2 : ~ Line.b l2 == 0).
    { intros H2. rewrite (slope_finite l1 H1), (slope_inf l2 H2) in Es.
      discriminate Es. }
    rewrite (slope_finite l1 H1), (slope_finite l2 H2) in Es.
    rewrite (intercept_finite l1 H1), (intercept_finite l2 H2) in Ei.
    apply Qeq_bool_iff in Es, Ei.
    rewrite (line_dist_finite l1 l2 H1 H2 Es).
    rewrite (Qeq_eqR _ _ Ei). do 2 f_equal.
    rewrite Rminus_diag, Rabs_R0. unfold Rdiv. ring.
Qed.

Lemma parallel_slopes (a1 b1 a2 b2 : Q) :
  ~ b1 == 0 -> ~ b2 == 0 -> a1 * b2 - a2 * b1 == 0 ->
  - a1 / b1 == - a2 / b2.
Proof.
  intros H1 H2 H.
  assert (E : a1 == a2 * b1 / b2).
  { transitivity (a1 * b2 / b2); [ field; assumption | ].
    setoid_replace (a1 * b2) with (a2 * b1) by lra. reflexivity. }
  rewrite E. field. split; assumption.
Qed.

(** X6. For two parallel lines with a finite slope, [Line.dist] between the
    lines is the distance from the first line to any point lying exactly on
    the second, and it does not depend on which line is asked. *)
Theorem parallel_lines_distance (l1 l2 : Line.t) (f : Point.t) :
  ~ Line.b l1 == 0 -> ~ Line.b l2 == 0 ->
  Line.a l1 * Line.b l2 - Line.a l2 * Line.b l1 == 0 ->
  residual l2 f == 0 ->
  exists d : R,
    Line.dist l1 (Line.OfLine l2) = Ok (EReal d)
    /\ Line.dist l2 (Line.OfLine l1) = Ok (EReal d)
    /\ Line.dist l1 (Line.OfPoint f) = Ok (EReal d).
Proof.
  intros H1 H2 Hpar Hf.
  pose proof (parallel_slopes _ _ _ _ H1 H2 Hpar) as Hm.
  pose proof (line_dist_finite l1 l2 H1 H2 Hm) as D12.
  assert (D21 : Line.dist l2 (Line.OfLine l1) =
                Ok (EReal (Rabs (Q2R (- Line.c l1 / Line.b l1)
                                 - Q2R (- Line.c l2 / Line.b l2))
                           / hypot (- Line.a l1 / Line.b l1) 1))).
  { symmetry in Hm. rewrite (line_dist_finite l2 l1 H2 H1 Hm).
    do 2 f_equal. rewrite Rabs_minus_sym. f_equal.
    unfold hypot. apply f_equal, Qeq_eqR. rewrite Hm. reflexivity. }
  eexists. split; [ exact D12 | ]. split; [ exact D21 | ].
  clear D12 D21.
  rewrite line_dist_point, point_dist_line_ok by tauto.
  destruct l1 as [a1 b1 c1], l2 as [a2 b2 c2], f as [fx fy].
  unfold residual in *. fields. do 2 f_equal.
  assert (Er : a1 * fx + b1 * fy + c1 == b1 * (- c2 / b2 - - c1 / b1)).
  { assert (Ey : fy == - (a2 * fx + c2) / b2)
      by (transitivity ((a2 * fx + b2 * fy + c2) / b2 - (a2 * fx + c2) / b2);
          [ field; assumption | rewrite Hf; field; assumption ]).
    rewrite Ey.
    assert (Ea : a1 == a2 * b1 / b2).
    { transitivity (a1 * b2 / b2); [ field; assumption | ].
      setoid_replace (a1 * b2) with (a2 * b1) by lra. reflexivity. }
    rewrite Ea. field. split; assumption. }
  assert (Eh : a1 * a1 + b1 * b1
               == b1 * b1 * (- a1 / b1 * (- a1 / b1) + 1 * 1))
    by (field; assumption).
  rewrite (Qeq_eqR _ _ Er). unfold hypot. rewrite (Qeq_eqR _ _ Eh).
  rewrite (Q2R_mult b1), (Q2R_mult (b1 * b1)), (Q2R_mult b1 b1).
  assert (Hb : Q2R b1 <> 0%R).
  { intros E. apply H1. apply eqR_Qeq. now rewrite RMicromega.Q2R_0. }
  rewrite sqrt_mult_alt by nra.
  rewrite Rabs_mult, <- (sqrt_Rsqr_abs (Q2R b1)). unfold Rsqr.
  rewrite Q2R_minus, (Rabs_minus_sym (Q2R (- c2 / b2))).
  assert (Hs : (0 < sqrt (Q2R b1 * Q2R b1))%R)
    by (apply sqrt_lt_R0; nra).
  pose proof (hypot1_pos (- a1 / b1)) as Hh. unfold hypot in Hh.
  field. split; lra.
Qed.

Lemma parallel_lines_distance_witness :
  exists d : R,
    Line.dist doc_a (Line.OfLine doc_c) = Ok (EReal d)
    /\ Line.dist doc_c (Line.OfLine doc_a) = Ok (EReal d)
    /\ Line.dist doc_a (Line.OfPoint (pt 0 1)) = Ok (EReal d).
Proof.
  apply (parallel_lines_distance doc_a doc_c (pt 0 1)).
  - vm_compute. discriminate.
  - vm_compute. discriminate.
  - reflexivity.
  - reflexivity.
Defined.

(** ** Intercepts and the forms of a line *)

(** X7. [x()] is [None] exactly when [a == 0] and [y()] exactly when
    [b == 0]; an intercept that is returned lies on its axis and satisfies
    the equation of the line, so the line contains it. *)
Theorem intercepts_on_line (l : Line.t) :
  (Line.x l = None <-> Line.a l == 0)
  /\ (Line.y l = None <-> Line.b l == 0)
  /\ (forall p : Point.t,
        Line.x l = Some p ->
        Point.y p = 0 /\ residual l p == 0 /\ Line.contains l p = true)
  /\ (forall p : Point.t,
        Line.y l = Some p ->
        Point.x p = 0 /\ residual l p == 0 /\ Line.contains l p = true).
Proof.
  destruct l as [a b c]. unfold Line.x, Line.y, residual. fields.
  split; [ | split; [ | split ] ].
  - destruct (Qeq_bool a 0) eqn:E.
    + apply Qeq_bool_iff in E. tauto.
    + apply Qeq_bool_false in E. split; [ discriminate | contradiction ].
  - destruct (Qeq_bool b 0) eqn:E.
    + apply Qeq_bool_iff in E. tauto.
    + apply Qeq_bool_false in E. split; [ discriminate | contradiction ].
  - intros p. destruct (Qeq_bool a 0) eqn:E; [ discriminate | ].
    apply Qeq_bool_false in E. intros H. injection H as <-. fields.
    assert (R0 : a * (- c / a) + b * 0 + c == 0) by (field; assumption).
    split; [ reflexivity | ]. split; [ exact R0 | ].
    now apply contains_exact.
  - intros p. destruct (Qeq_bool b 0) eqn:E; [ discriminate | ].
    apply Qeq_bool_false in E. intros H. injection H as <-. fields.
    assert (R0 : a * 0 + b * (- c / b) + c == 0) by (field; assumption).
    split; [ reflexivity | ]. split; [ exact R0 | ].
    now apply contains_exact.
Qed.

(** X8. Slope-intercept round trips.  Building a line from [(m, q)] and
    reading its slope-intercept form gives back [m] and [q]; reading the form
    of a line with [b] nonzero and rebuilding gives a line that compares
    equal to it and has the same points. *)
Theorem slope_intercept_round_trip (m q : Q) (l : Line.t) :
  (exists m' q' : Q,
     Line.slope_intercept_form (Line.from_slope_intercept_form m q)
     = (Finite m', Finite q')
     /\ m' == m /\ q' == q)
  /\ (~ Line.b l == 0 ->
      exists m' q' : Q,
        Line.slope_intercept_form l = (Finite m', Finite q')
        /\ Line.eqb (Line.from_slope_intercept_form m' q') l = true
        /\ forall p : Point.t,
             residual (Line.from_slope_intercept_form m' q') p == 0
             <-> residual l p == 0).
Proof.
  split.
  - exists (- m / -1), (- q / -1).
    split; [ reflexivity | ]. split; field.
  - intros Hb. exists (- Line.a l / Line.b l), (- Line.c l / Line.b l).
    unfold Line.slope_intercept_form.
    rewrite (slope_finite l Hb), (intercept_finite l Hb).
    split; [ reflexivity | ]. split.
    + unfold Line.eqb.
      rewrite (slope_finite l Hb), (intercept_finite l Hb).
      apply andb_true_intro.
      split; apply Qeq_bool_iff; cbn [Line.from_slope_intercept_form
        Line.a Line.b Line.c]; field; assumption.
    + intros p. destruct l as [a b c]. unfold residual. fields.
      assert (E : - a / b * Point.x p + -1 * Point.y p + - c / b
                  == - (1 / b) * (a * Point.x p + b * Point.y p + c))
        by (field; assumption).
      rewrite E. split; intros H.
      * apply Qmult_integral in H. destruct H as [H | H]; [ | exact H ].
        exfalso. apply (quotient_nonzero 1 b); [ discriminate | exact Hb | lra ].
      * rewrite H. ring.
Qed.

(** X9. [from_point_slope_form(p, m)] is a non-vertical line through [p]
    with slope [m]. *)
Theorem from_point_slope_form_spec (p : Point.t) (m : Q) :
  residual (Line.from_point_slope_form p m) p == 0
  /\ Line.contains (Line.from_point_slope_form p m) p = true
  /\ xfloat_eqb (Line.slope (Line.from_point_slope_form p m)) (Finite m) = true
  /\ Line.y (Line.from_point_slope_form p m) <> None.
Proof.
  assert (R0 : residual (Line.from_point_slope_form p m) p == 0)
    by (unfold residual; simpl; ring).
  split; [ exact R0 | ]. split; [ now apply contains_exact | ]. split.
  - change (Qeq_bool (- m / -1) m = true). apply Qeq_bool_iff. field.
  - discriminate.
Qed.

Lemma xfloat_eqb_sym (u v : xfloat) : xfloat_eqb u v = xfloat_eqb v u.
Proof.
  destruct u as [p |], v as [q |]; simpl; try reflexivity.
  destruct (Qeq_bool p q) eqn:E.
  - apply Qeq_bool_iff in E. symmetry. apply Qeq_bool_iff. now symmetry.
  - apply Qeq_bool_false in E. symmetry. apply Qeq_bool_false.
    intros H. apply E. now symmetry.
Qed.

Lemma xfloat_eqb_trans (u v w : xfloat) :
  xfloat_eqb u v = true -> xfloat_eqb v w = true -> xfloat_eqb u w = true.
Proof.
  destruct u as [p |], v as [q |], w as [r |]; simpl; try discriminate;
    try reflexivity.
  rewrite !Qeq_bool_iff. intros H1 H2. now rewrite H1.
Qed.

(** X10. The line through two points does not depend on their order:
    [from_points(p, q)] and [from_points(q, p)] both return and the two
    lines compare equal. *)
Theorem from_points_order (p q : Point.t) :
  exists l l' : Line.t,
    Line.from_points p q = Ok l
    /\ Line.from_points q p = Ok l'
    /\ Line.eqb l l' = true.
Proof.
  do 2 eexists. rewrite !from_points_cases.
  split; [ reflexivity | ]. split; [ reflexivity | ].
  destruct (Qeq_bool (Point.x p) (Point.x q)) eqn:E.
  - apply Qeq_bool_iff in E.
    assert (E' : Qeq_bool (Point.x q) (Point.x p) = true)
      by (apply Qeq_bool_iff; now symmetry).
    rewrite E'. reflexivity.
  - apply Qeq_bool_false in E.
    assert (E' : Qeq_bool (Point.x q) (Point.x p) = false)
      by (apply Qeq_bool_false; intros H; apply E; now symmetry).
    rewrite E'. unfold Line.eqb, Line.slope, Line.intercept.
    cbn [Line.from_point_slope_form Line.a Line.b Line.c].
    rewrite !truediv_ok by discriminate. cbn [xfloat_eqb].
    assert (H1 : ~ Point.x p - Point.x q == 0) by (intros H; apply E; lra).
    assert (H2 : ~ Point.x q - Point.x p == 0) by (intros H; apply E; lra).
    apply andb_true_intro.
    split; apply Qeq_bool_iff; field; split; assumption.
Qed.

(** ** Line.perpendicular *)

(** X11. [Line.perpendicular(p)] raises [ZeroDivisionError] exactly on a
    horizontal line ([a == 0], [b] nonzero).  On every other line it returns
    a line through [p] whose normal vector is orthogonal to the normal vector
    of the original; for a vertical line that is the horizontal line through
    [p]. *)
Theorem line_perpendicular_spec (l : Line.t) (p : Point.t) :
  (Line.a l == 0 /\ ~ Line.b l == 0 ->
   Line.perpendicular l p = Raise ZeroDivisionError)
  /\ (~ (Line.a l == 0 /\ ~ Line.b l == 0) ->
      exists l' : Line.t,
        Line.perpendicular l p = Ok l'
        /\ residual l' p == 0
        /\ Line.a l * Line.a l' + Line.b l * Line.b l' == 0
        /\ (Line.b l == 0 ->
            l' = Line.from_slope_intercept_form 0 (Point.y p - 0 * Point.x p))).
Proof.
  unfold Line.perpendicular. split.
  - intros [Ha Hb]. rewrite (slope_finite l Hb).
    rewrite truediv_zero; [ reflexivity | ].
    rewrite Ha. field. exact Hb.
  - intros H. destruct (Qeq_dec (Line.b l) 0) as [Hb | Hb].
    + rewrite (slope_inf l Hb). cbn [bind].
      eexists. split; [ reflexivity | ].
      split; [ unfold residual; simpl; ring | ].
      split; [ simpl; rewrite Hb; ring | reflexivity ].
    + assert (Ha : ~ Line.a l == 0) by tauto.
      rewrite (slope_finite l Hb).
      rewrite truediv_ok
        by (apply quotient_nonzero; [ intros E; apply Ha; lra | exact Hb ]).
      cbn [bind]. eexists. split; [ reflexivity | ].
      split; [ unfold residual; simpl; ring | ].
      split; [ simpl; field; split; assumption | contradiction ].
Qed.

(** ** Line equality *)

(** On floats a line whose [intercept()] is [nan] is not equal to itself,
    and the program builds one from finite input:
    [from_points((0, 0), (2.0**-600, 2.0**600))] is [Line(inf, -1, nan)]. *)
Example line_binary64_not_reflexive :
  exists l : Binary64.Line.t,
    Binary64.Line.from_points Binary64.origin Binary64.steep_point = Ok l
    /\ PrimFloat.is_nan (Binary64.Line.intercept l) = true
    /\ Binary64.Line.eqb l l = false.
Proof. eexists. split; [ vm_compute; reflexivity | ]. split; reflexivity. Qed.

(** X12. In exact arithmetic, on lines whose coefficients are numbers (none
    of them [nan]), line [==] is an equivalence relation. *)
Theorem line_eqb_equivalence (l1 l2 l3 : Line.t) :
  Line.eqb l1 l1 = true
  /\ Line.eqb l1 l2 = Line.eqb l2 l1
  /\ (Line.eqb l1 l2 = true -> Line.eqb l2 l3 = true ->
      Line.eqb l1 l3 = true).
Proof.
  unfold Line.eqb. split; [ | split ].
  - now rewrite !xfloat_eqb_refl.
  - now rewrite (xfloat_eqb_sym (Line.slope l1)),
      (xfloat_eqb_sym (Line.intercept l1)).
  - rewrite !andb_true_iff. intros [S12 I12] [S23 I23].
    split; eapply xfloat_eqb_trans; eassumption.
Qed.

Lemma scale_eqb (k : Q) (l : Line.t) :
  ~ k == 0 -> Line.eqb (scale k l) l = true.
Proof.
  intros Hk. destruct l as [a b c]. unfold scale. fields.
  unfold Line.eqb, Line.slope, Line.intercept, truediv. fields.
  destruct (Qeq_bool b 0) eqn:Eb.
  - apply Qeq_bool_iff in Eb.
    assert (Ekb : Qeq_bool (k * b) 0 = true)
      by (apply Qeq_bool_iff; rewrite Eb; ring).
    now rewrite Ekb.
  - apply Qeq_bool_false in Eb.
    assert (Ekb : Qeq_bool (k * b) 0 = false).
    { apply Qeq_bool_false. intros H. apply Qmult_integral in H. tauto. }
    rewrite Ekb. cbn [xfloat_eqb].
    apply andb_true_intro; split; apply Qeq_bool_iff; field; tauto.
Qed.

(** X13. Containment is not a property of the geometric line: the tolerance
    bounds the raw residual [a*x + b*y + c], so for every line and every
    point there is a line that compares equal to the given one (its
    coefficients scaled by a nonzero factor) and contains the point. *)
Theorem contains_depends_on_scale (l : Line.t) (p : Point.t) :
  exists k : Q,
    ~ k == 0
    /\ Line.eqb (scale k l) l = true
    /\ Line.contains (scale k l) p = true.
Proof.
  pose proof (Qabs_nonneg (residual l p)) as Ht.
  set (t := Qabs (residual l p)) in *.
  assert (Ht1 : ~ t + 1 == 0) by lra.
  assert (Hk : 0 < EPSILON / (t + 1)).
  { apply Qlt_shift_div_l; [ lra | ]. unfold EPSILON. lra. }
  exists (EPSILON / (t + 1)).
  split; [ lra | ]. split; [ apply scale_eqb; lra | ].
  apply contains_iff. unfold scale. fields.
  setoid_replace
    (EPSILON / (t + 1) * Line.a l * Point.x p
     + EPSILON / (t + 1) * Line.b l * Point.y p
     + EPSILON / (t + 1) * Line.c l)
    with (EPSILON / (t + 1) * residual l p) by (unfold residual; ring).
  rewrite Qabs_Qmult, (Qabs_pos (EPSILON / (t + 1))) by lra.
  fold t.
  setoid_replace (EPSILON / (t + 1) * t) with (EPSILON * t / (t + 1))
    by (field; exact Ht1).
  apply Qle_shift_div_r; [ lra | ].
  unfold EPSILON. lra.
Qed.

(** ** Line.intersect, both ways round *)

Lemma intersect_nonparallel_ok (l1 l2 : Line.t) :
  ~ Line.b l1 * Line.a l2 - Line.a l1 * Line.b l2 == 0 ->
  exists p : Point.t, Line.intersect l1 l2 = Ok (Line.APoint p).
Proof.
  intros Hd. unfold Line.intersect, Line.y, Line.call.
  rewrite (proj2 (Qeq_bool_false _ _) Hd), (truediv_ok _ _ Hd). cbn [bind].
  destruct (Qeq_bool (Line.b l1) 0) eqn:E1.
  - apply Qeq_bool_iff in E1.
    assert (H2 : ~ Line.b l2 == 0)
      by (intros H2; apply Hd; rewrite E1, H2; ring).
    rewrite (proj2 (Qeq_bool_false _ _) H2), (truediv_ok _ _ H2).
    eexists. reflexivity.
  - apply Qeq_bool_false in E1. rewrite (truediv_ok _ _ E1).
    eexists. reflexivity.
Qed.

(** X14. [intersect] never raises, returns a point exactly when
    [denom = b1*a2 - a1*b2] is nonzero, and is symmetric: swapping the two
    lines gives an equal point, [None] again, or the other of two lines that
    compare equal. *)
Theorem intersect_total_symmetric (l1 l2 : Line.t) :
  exists m m' : Line.meet,
    Line.intersect l1 l2 = Ok m
    /\ Line.intersect l2 l1 = Ok m'
    /\ (~ Line.b l1 * Line.a l2 - Line.a l1 * Line.b l2 == 0 <->
        exists p : Point.t, m = Line.APoint p)
    /\ match m, m' with
       | Line.APoint p, Line.APoint p' => Point.eqb p p' = true
       | Line.ALine k, Line.ALine k' =>
           k = l1 /\ k' = l2 /\ Line.eqb l1 l2 = true
       | Line.ANone, Line.ANone => True
       | _, _ => False
       end.
Proof.
  destruct (Qeq_dec (Line.b l1 * Line.a l2 - Line.a l1 * Line.b l2) 0)
    as [Hd | Hd].
  - assert (Hd' : Line.b l2 * Line.a l1 - Line.a l2 * Line.b l1 == 0) by lra.
    rewrite (intersect_equal_slopes_cases _ _ Hd),
      (intersect_equal_slopes_cases _ _ Hd').
    rewrite (xfloat_eqb_sym (Line.intercept l2)).
    destruct (xfloat_eqb (Line.intercept l1) (Line.intercept l2)) eqn:Ei.
    + do 2 eexists. split; [ reflexivity | ]. split; [ reflexivity | ].
      split; [ split; [ contradiction | intros [p Hp]; discriminate Hp ] | ].
      split; [ reflexivity | ]. split; [ reflexivity | ].
      unfold Line.eqb. rewrite Ei, andb_true_r.
      destruct (Qeq_dec (Line.b l1) 0) as [H1 | H1];
        destruct (Qeq_dec (Line.b l2) 0) as [H2 | H2].
      * now rewrite (slope_inf l1 H1), (slope_inf l2 H2).
      * rewrite (intercept_inf l1 H1), (intercept_finite l2 H2) in Ei.
        discriminate Ei.
      * rewrite (intercept_finite l1 H1), (intercept_inf l2 H2) in Ei.
        discriminate Ei.
      * rewrite (slope_finite l1 H1), (slope_finite l2 H2).
        apply Qeq_bool_iff. apply parallel_slopes; try assumption. lra.
    + do 2 eexists. split; [ reflexivity | ]. split; [ reflexivity | ].
      split; [ split; [ contradiction | intros [p Hp]; discriminate Hp ] | ].
      exact I.
  - assert (Hd' : ~ Line.b l2 * Line.a l1 - Line.a l2 * Line.b l1 == 0)
      by (intros H; apply Hd; lra).
    destruct (intersect_nonparallel_ok _ _ Hd) as [p Hp].
    destruct (intersect_nonparallel_ok _ _ Hd') as [p' Hp'].
    exists (Line.APoint p), (Line.APoint p').
    split; [ exact Hp | ]. split; [ exact Hp' | ].
    split; [ split; [ intros _; now exists p | intros _; exact Hd ] | ].
    apply intersect_point_exact in Hp, Hp'.
    destruct Hp as (_ & P1 & P2), Hp' as (_ & P2' & P1').
    destruct (common_point_unique _ _ _ _ _ _ _ _ _ _ Hd P1 P2 P1' P2')
      as [Ex Ey].
    unfold Point.eqb. apply andb_true_intro.
    split; now apply Qeq_bool_iff.
Qed.

(** ** Segments: midpoint and perpendicular bisector *)

(** X15. [Segment.midpoint] always returns; the midpoint is equidistant from
    both endpoints, at half the length of the segment, lies exactly on
    [line()], and does not depend on the order of the endpoints. *)
Theorem segment_midpoint_spec (s : Segment.t) :
  exists m : Point.t,
    Segment.midpoint s = Ok m
    /\ dist m (Segment.A s) = dist m (Segment.B s)
    /\ (2 * dist m (Segment.A s))%R = Segment.length s
    /\ (forall l : Line.t, Segment.line s = Ok l -> residual l m == 0)
    /\ (exists m' : Point.t,
          Segment.midpoint (Segment.mk (Segment.B s) (Segment.A s)) = Ok m'
          /\ Point.eqb m m' = true).
Proof.
  destruct s as [[ax ay] [bx by_]].
  eexists. split; [ apply segment_midpoint_ok | ]. fields.
  split; [ | split; [ | split ] ].
  - apply dist_eq_of_sqdist. unfold sqdist. fields. field.
  - unfold Segment.length. fields. symmetry.
    rewrite (dist_sqdist (Point.mk ax ay)).
    assert (E : sqdist (Point.mk ax ay) (Point.mk bx by_)
                == 4 * sqdist (Point.mk ((ax + (bx + 0)) / inject_Z 2)
                                        ((ay + (by_ + 0)) / inject_Z 2))
                              (Point.mk ax ay))
      by (unfold sqdist; fields; field).
    rewrite (Qeq_eqR _ _ E), Q2R_mult.
    replace (Q2R 4) with 4%R by (unfold Q2R; simpl; lra).
    rewrite sqrt_four_times by apply Q2R_sqdist_nonneg.
    reflexivity.
  - intros l Hl. unfold Segment.line in Hl. fields.
    apply from_points_contains_both in Hl. destruct Hl as [Ha Hb].
    unfold residual. fields.
    transitivity
      ((Line.a l * ax + Line.b l * ay + Line.c l) / 2
       + (Line.a l * bx + Line.b l * by_ + Line.c l) / 2); [ field | ].
    rewrite Ha, Hb. reflexivity.
  - eexists. split; [ apply segment_midpoint_ok | ]. fields.
    unfold Point.eqb. fields.
    apply andb_true_intro. split; apply Qeq_bool_iff; field.
Qed.

Lemma is_vertical_true (s : Segment.t) :
  is_vertical s = true <->
  Point.x (Segment.A s) == Point.x (Segment.B s)
  /\ ~ Point.y (Segment.A s) == Point.y (Segment.B s).
Proof.
  unfold is_vertical.
  now rewrite andb_true_iff, negb_true_iff, Qeq_bool_iff, Qeq_bool_false.
Qed.

(** X16. [Segment.perpendicular_bisector] raises [ZeroDivisionError] on a
    vertical segment.  On every other segment it returns a line all of whose
    points are equidistant from the two endpoints, and, when the endpoints
    differ, every equidistant point satisfies its equation. *)
Theorem perpendicular_bisector_equidistant (s : Segment.t) :
  (is_vertical s = true ->
   Segment.perpendicular_bisector s = Raise ZeroDivisionError)
  /\ (is_vertical s = false ->
      exists l : Line.t,
        Segment.perpendicular_bisector s = Ok l
        /\ (forall p : Point.t,
              residual l p == 0 ->
              dist p (Segment.A s) = dist p (Segment.B s))
        /\ (Point.eqb (Segment.A s) (Segment.B s) = false ->
            forall p : Point.t,
              dist p (Segment.A s) = dist p (Segment.B s) ->
              residual l p == 0)).
Proof.
  split.
  - intros Hv. apply is_vertical_true in Hv. destruct Hv as [Hx Hy].
    unfold Segment.perpendicular_bisector.
    rewrite segment_midpoint_ok. cbn [bind].
    apply (perpendicular_zero_division s _ Hx Hy).
  - intros Hv.
    assert (Hret : exists l, Segment.perpendicular_bisector s = Ok l).
    { unfold Segment.perpendicular_bisector.
      rewrite segment_midpoint_ok. cbn [bind].
      now apply perpendicular_returns. }
    destruct Hret as [l Hl]. exists l. split; [ exact Hl | ].
    apply perpendicular_bisector_spec in Hl. destruct Hl as [M P].
    apply perpendicular_to_iff in P. destruct P as [N P].
    destruct s as [[ax ay] [bx by_]], l as [a b c]. fields.
    assert (Hsq : forall p,
               sqdist p (Point.mk ax ay) - sqdist p (Point.mk bx by_)
               == - ((ax - bx) * (2 * Point.x p - (ax + bx))
                     + (ay - by_) * (2 * Point.y p - (ay + by_))))
      by (intros p; unfold sqdist; fields; ring).
    assert (Hres : forall p,
               2 * residual (Line.mk a b c) p
               == a * (2 * Point.x p - (ax + bx))
                  + b * (2 * Point.y p - (ay + by_)))
      by (intros p; unfold residual; fields; lra).
    split.
    + intros p Hp. apply dist_eq_of_sqdist.
      pose proof (Hsq p) as E. pose proof (Hres p) as E'.
      rewrite Hp in E'.
      assert (D : (ax - bx) * (2 * Point.x p - (ax + bx))
                  + (ay - by_) * (2 * Point.y p - (ay + by_)) == 0).
      { apply (parallel_orthogonal _ _ a b); [ lra | exact N | lra ]. }
      lra.
    + intros Hab p Hp. apply sqdist_eq_of_dist in Hp.
      pose proof (Hsq p) as E. pose proof (Hres p) as E'.
      assert (W : a * (2 * Point.x p - (ax + bx))
                  + b * (2 * Point.y p - (ay + by_)) == 0).
      { apply (parallel_orthogonal _ _ (ax - bx) (ay - by_));
          [ exact P | | lra ].
        intros [Hx Hy].
        assert (Heq : Point.eqb (Point.mk ax ay) (Point.mk bx by_) = true).
        { unfold Point.eqb. fields. apply andb_true_intro.
          split; apply Qeq_bool_iff; lra. }
        congruence. }
      lra.
Qed.

(** ** Cyclic pairs of a vertex list *)

Lemma rot_permutation {Y : Type} (l : list Y) : Permutation (rot l) l.
Proof.
  destruct l as [| v l]; [ constructor | ].
  symmetry. apply Permutation_cons_append.
Qed.

Section CyclicPairs.

Context {X : Type}.

Lemma pairs_cons (v : X) (l : list X) : pairs (v :: l) = chain v l v.
Proof.
  unfold pairs, chain, Polygon.rotated. cbn [tl].
  rewrite combine_firstn_l. f_equal.
  change (length (v :: l)) with (S (length l)).
  rewrite firstn_app, firstn_all2 by lia.
  replace (S (length l) - length l)%nat with 1%nat by lia.
  reflexivity.
Qed.

Lemma chain_snoc (v : X) (l : list X) (w z : X) :
  chain v (l ++ [w]) z = chain v l w ++ [(w, z)].
Proof.
  revert v. induction l as [| u l IH]; intros v; [ reflexivity | ].
  change (chain v ((u :: l) ++ [w]) z) with ((v, u) :: chain u (l ++ [w]) z).
  rewrite IH. reflexivity.
Qed.

(** Starting one vertex later rotates the list of edges. *)
Lemma pairs_rot (l : list X) : pairs (rot l) = rot (pairs l).
Proof.
  destruct l as [| v [| w l]]; [ reflexivity | reflexivity | ].
  cbn [rot]. change ((w :: l) ++ [v]) with (w :: (l ++ [v])).
  rewrite !pairs_cons, chain_snoc. reflexivity.
Qed.

Lemma chain_rev (v : X) (l : list X) (z : X) :
  chain z (rev l) v = map flip_pair (rev (chain v l z)).
Proof.
  revert v. induction l as [| w l IH]; intros v; [ reflexivity | ].
  cbn [rev]. rewrite chain_snoc, IH.
  change (chain v (w :: l) z) with ((v, w) :: chain w l z).
  cbn [rev]. rewrite map_app. reflexivity.
Qed.

Lemma pairs_rot_permutation (l : list X) :
  Permutation (pairs (rot l)) (pairs l).
Proof. rewrite pairs_rot. apply rot_permutation. Qed.

(** Reversing the vertex order reverses every edge. *)
Lemma pairs_rev_permutation (l : list X) :
  Permutation (pairs (rev l)) (map flip_pair (pairs l)).
Proof.
  destruct (rev l) as [| z t] eqn:E.
  - apply (f_equal (@rev X)) in E. rewrite rev_involutive in E.
    subst l. constructor.
  - assert (El : l = rot (z :: rev t)).
    { apply (f_equal (@rev X)) in E. rewrite rev_involutive in E.
      exact E. }
    rewrite El, pairs_rot, !pairs_cons.
    rewrite <- (rev_involutive t) at 1. rewrite chain_rev.
    apply Permutation_map.
    rewrite <- Permutation_rev. symmetry. apply rot_permutation.
Qed.

End CyclicPairs.

(** ** Sums over a vertex list *)

Lemma qsum_permutation (l l' : list Q) :
  Permutation l l' -> qsum l == qsum l'.
Proof.
  unfold qsum.
  induction 1 as [| u l l' _ IH | u v l | l l' l'' _ IH1 _ IH2];
    cbn [fold_right].
  - reflexivity.
  - now rewrite IH.
  - ring.
  - now rewrite IH1.
Qed.

Lemma rsum_permutation (l l' : list R) :
  Permutation l l' -> rsum l = rsum l'.
Proof.
  unfold rsum.
  induction 1 as [| u l l' _ IH | u v l | l l' l'' _ IH1 _ IH2];
    cbn [fold_right].
  - reflexivity.
  - now rewrite IH.
  - ring.
  - now rewrite IH1.
Qed.

Lemma area_pairs (l : Polygon.t) :
  Polygon.area l = Qabs (qsum (map cross (pairs l))) / 2.
Proof. reflexivity. Qed.

Lemma perimeter_pairs (l : Polygon.t) :
  Polygon.perimeter l = rsum (map (fun t => dist (fst t) (snd t)) (pairs l)).
Proof. reflexivity. Qed.

Lemma qsum_cross_flip (l : list (Point.t * Point.t)) :
  qsum (map cross (map flip_pair l)) == - qsum (map cross l).
Proof.
  unfold qsum. induction l as [| t l IH]; cbn [map fold_right].
  - reflexivity.
  - rewrite IH. unfold cross, flip_pair. cbn [fst snd]. ring.
Qed.

(** ** Polygon.area *)

(** X17. The area does not depend on which vertex the list starts with, nor
    on the direction in which the vertices are listed. *)
Theorem area_vertex_order (l : Polygon.t) :
  Polygon.area (rot l) == Polygon.area l
  /\ Polygon.area (rev l) == Polygon.area l.
Proof.
  rewrite !area_pairs. split.
  - rewrite (qsum_permutation _ _
               (Permutation_map cross (pairs_rot_permutation l))).
    reflexivity.
  - rewrite (qsum_permutation _ _
               (Permutation_map cross (pairs_rev_permutation l))).
    rewrite qsum_cross_flip, Qabs_opp. reflexivity.
Qed.

Lemma chain_translate_sum (dx dy : Q) (v : Point.t) (l : list Point.t)
      (z : Point.t) :
  qsum (map cross (chain (translate dx dy v) (map (translate dx dy) l)
                         (translate dx dy z)))
  == qsum (map cross (chain v l z))
     + dx * (Point.y z - Point.y v) - dy * (Point.x z - Point.x v).
Proof.
  revert v. induction l as [| w l IH]; intros v.
  - unfold qsum, chain, cross, translate.
    cbn [map app combine fold_right fst snd Point.x Point.y]. ring.
  - change (chain v (w :: l) z) with ((v, w) :: chain w l z).
    change (chain (translate dx dy v) (map (translate dx dy) (w :: l))
                  (translate dx dy z))
      with ((translate dx dy v, translate dx dy w)
              :: chain (translate dx dy w) (map (translate dx dy) l)
                       (translate dx dy z)).
    unfold qsum in *. cbn [map fold_right].
    rewrite IH. unfold cross, translate. cbn [fst snd Point.x Point.y]. ring.
Qed.

(** X18. The area is invariant under translation of the polygon. *)
Theorem area_translation (dx dy : Q) (l : Polygon.t) :
  Polygon.area (map (translate dx dy) l) == Polygon.area l.
Proof.
  rewrite !area_pairs. destruct l as [| v l]; [ reflexivity | ].
  cbn [map]. rewrite !pairs_cons, chain_translate_sum.
  setoid_replace
    (qsum (map cross (chain v l v))
     + dx * (Point.y v - Point.y v) - dy * (Point.x v - Point.x v))
    with (qsum (map cross (chain v l v))) by ring.
  reflexivity.
Qed.

(** On floats the products of the shoelace sum can overflow: the area of the
    one-vertex polygon [(2.0**600, 2.0**600)] is [inf - inf], a [nan]. *)
Example area_binary64_overflow :
  PrimFloat.is_nan (Binary64.Polygon.area [Binary64.huge_point]) = true.
Proof. reflexivity. Qed.

(** X19. In exact arithmetic, the area is never negative, and a polygon with
    fewer than three vertices has area zero. *)
Theorem area_nonnegative_degenerate (l : Polygon.t) :
  0 <= Polygon.area l
  /\ ((length l < 3)%nat -> Polygon.area l == 0).
Proof.
  rewrite area_pairs. split.
  - apply Qle_shift_div_l; [ reflexivity | ].
    setoid_replace (0 * 2) with 0 by ring. apply Qabs_nonneg.
  - intros Hn.
    assert (E : qsum (map cross (pairs l)) == 0).
    { destruct l as [| p [| q [| r l]]].
      - reflexivity.
      - unfold qsum, pairs, Polygon.rotated, cross.
        cbn [tl app combine map fold_right fst snd]. ring.
      - unfold qsum, pairs, Polygon.rotated, cross.
        cbn [tl app combine map fold_right fst snd]. ring.
      - simpl in Hn. lia. }
    rewrite E. reflexivity.
Qed.

(** ** Polygon.perimeter *)

Lemma combine_map_both {X Y : Type} (g : X -> Y) (l l' : list X) :
  combine (map g l) (map g l')
  = map (fun t => (g (fst t), g (snd t))) (combine l l').
Proof.
  revert l'. induction l as [| u l IH]; intros [| v l']; try reflexivity.
  cbn [map combine fst snd]. now rewrite IH.
Qed.

Lemma pairs_map {X Y : Type} (g : X -> Y) (l : list X) :
  pairs (map g l) = map (fun t => (g (fst t), g (snd t))) (pairs l).
Proof.
  unfold pairs, Polygon.rotated. rewrite <- combine_map_both. f_equal.
  rewrite map_app. f_equal. now destruct l.
Qed.

Lemma dist_sym (p q : Point.t) : dist p q = dist q p.
Proof. apply dist_eq_of_sqdist. unfold sqdist. ring. Qed.

Lemma dist_translate (dx dy : Q) (p q : Point.t) :
  dist (translate dx dy p) (translate dx dy q) = dist p q.
Proof.
  apply dist_eq_of_sqdist. unfold sqdist, translate.
  cbn [Point.x Point.y]. ring.
Qed.

(** X20. The perimeter is never negative and is invariant under rotation
    and reversal of the vertex list and under translation of the polygon. *)
Theorem perimeter_invariance (dx dy : Q) (l : Polygon.t) :
  (0 <= Polygon.perimeter l)%R
  /\ Polygon.perimeter (rot l) = Polygon.perimeter l
  /\ Polygon.perimeter (rev l) = Polygon.perimeter l
  /\ Polygon.perimeter (map (translate dx dy) l) = Polygon.perimeter l.
Proof.
  rewrite !perimeter_pairs. split; [ | split; [ | split ] ].
  - unfold rsum. induction (pairs l) as [| t ts IH]; cbn [map fold_right].
    + lra.
    + pose proof (sqrt_pos
                    (Q2R (sqdist (fst t) (snd t)))) as H.
      rewrite <- dist_sqdist in H. lra.
  - apply rsum_permutation, Permutation_map, pairs_rot_permutation.
  - rewrite (rsum_permutation _ _
               (Permutation_map _ (pairs_rev_permutation l))).
    rewrite map_map. f_equal. apply map_ext.
    intros t. unfold flip_pair. cbn [fst snd]. apply dist_sym.
  - rewrite pairs_map, map_map. f_equal. apply map_ext.
    intros t. cbn [fst snd]. apply dist_translate.
Qed.

(** ** Polygon.centroid *)

Lemma centroid_cons (v : Point.t) (l : list Point.t) :
  Polygon.centroid (v :: l) =
  Ok (Point.mk
        (qsum (map Point.x (v :: l)) / inject_Z (Z.of_nat (length (v :: l))))
        (qsum (map Point.y (v :: l)) / inject_Z (Z.of_nat (length (v :: l))))).
Proof.
  unfold Polygon.centroid, midpoint, mean. cbn [map mapM bind Point.of_args].
  cbn [length]. rewrite !length_map. reflexivity.
Qed.

Lemma length_positive_Q (v : Point.t) (l : list Point.t) :
  ~ inject_Z (Z.of_nat (length (v :: l))) == 0.
Proof.
  intros H. unfold Qeq in H. cbn [length] in H.
  rewrite Nat2Z.inj_succ in H. simpl in H. lia.
Qed.

Lemma qsum_map_translate_x (dx dy : Q) (l : list Point.t) :
  qsum (map Point.x (map (translate dx dy) l))
  == qsum (map Point.x l) + inject_Z (Z.of_nat (length l)) * dx.
Proof.
  unfold qsum. induction l as [| v l IH]; cbn [map fold_right length].
  - ring.
  - rewrite IH, Nat2Z.inj_succ, <- Z.add_1_r, inject_Z_plus.
    unfold translate. cbn [Point.x]. ring.
Qed.

Lemma qsum_map_translate_y (dx dy : Q) (l : list Point.t) :
  qsum (map Point.y (map (translate dx dy) l))
  == qsum (map Point.y l) + inject_Z (Z.of_nat (length l)) * dy.
Proof.
  unfold qsum. induction l as [| v l IH]; cbn [map fold_right length].
  - ring.
  - rewrite IH, Nat2Z.inj_succ, <- Z.add_1_r, inject_Z_plus.
    unfold translate. cbn [Point.y]. ring.
Qed.

(** X21. [centroid()] raises [TypeError] on a polygon without vertices and
    returns on every other one; the centroid does not depend on the order of
    the vertices, and translating the polygon translates its centroid. *)
Theorem centroid_spec (dx dy : Q) (l l' : Polygon.t) :
  Polygon.centroid [] = Raise TypeError
  /\ (l <> [] ->
      exists g : Point.t,
        Polygon.centroid l = Ok g
        /\ (Permutation l l' ->
            exists g' : Point.t,
              Polygon.centroid l' = Ok g' /\ Point.eqb g g' = true)
        /\ (exists g' : Point.t,
              Polygon.centroid (map (translate dx dy) l) = Ok g'
              /\ Point.eqb g' (translate dx dy g) = true)).
Proof.
  split; [ reflexivity | ].
  intros Hl. destruct l as [| v l]; [ contradiction | ].
  eexists. split; [ apply centroid_cons | ].
  pose proof (length_positive_Q v l) as Hn.
  split.
  - intros HP. destruct l' as [| v' l'].
    + apply Permutation_sym, Permutation_nil in HP. discriminate HP.
    + eexists. split; [ apply centroid_cons | ].
      unfold Point.eqb. cbn [Point.x Point.y].
      rewrite <- (Permutation_length HP).
      apply andb_true_intro. split; apply Qeq_bool_iff.
      * rewrite (qsum_permutation _ _ (Permutation_map Point.x HP)).
        reflexivity.
      * rewrite (qsum_permutation _ _ (Permutation_map Point.y HP)).
        reflexivity.
  - cbn [map]. eexists. split; [ apply centroid_cons | ].
    change (translate dx dy v :: map (translate dx dy) l)
      with (map (translate dx dy) (v :: l)).
    unfold Point.eqb.
    change (Point.x (translate dx dy ?p)) with (Point.x p + dx).
    change (Point.y (translate dx dy ?p)) with (Point.y p + dy).
    cbn [Point.x Point.y]. rewrite length_map.
    apply andb_true_intro. split; apply Qeq_bool_iff.
    + rewrite qsum_map_translate_x. cbn [map]. field. exact Hn.
    + rewrite qsum_map_translate_y. cbn [map]. field. exact Hn.
Qed.

(** ** Edges and medians of a polygon *)

(** X22. [segments()] returns as many segments as there are vertices; the
    [i]-th starts at vertex [i] and ends where the next one (cyclically)
    starts, so the edges form a closed chain. *)
Theorem segments_closed_chain (ps : Polygon.t) :
  length (Polygon.segments ps) = length ps
  /\ forall i : nat,
       (i < length ps)%nat ->
       exists s s' : Segment.t,
         nth_error (Polygon.segments ps) i = Some s
         /\ nth_error (Polygon.segments ps) ((i + 1) mod length ps) = Some s'
         /\ nth_error ps i = Some (Segment.A s)
         /\ Segment.B s = Segment.A s'.
Proof.
  split; [ apply segments_length | ].
  intros i Hi.
  destruct (segments_nth ps i Hi) as (p & q & Ep & Eq & Es).
  assert (Hj : ((i + 1) mod length ps < length ps)%nat)
    by (apply Nat.mod_upper_bound; lia).
  destruct (segments_nth ps _ Hj) as (q' & r & Eq' & _ & Es').
  assert (q' = q) by congruence. subst q'.
  exists (Segment.mk p q), (Segment.mk q r).
  repeat split; assumption.
Qed.

(** X23. [medians()] never raises and returns one segment per vertex: the
    [i]-th runs from vertex [i] to the midpoint of edge [(i + 1) mod n]. *)
Theorem medians_pairing (ps : Polygon.t) :
  exists ms : list Segment.t,
    Polygon.medians ps = Ok ms
    /\ length ms = length ps
    /\ forall i : nat,
         (i < length ps)%nat ->
         exists p q r m : Point.t,
           nth_error ms i = Some (Segment.mk p m)
           /\ nth_error ps i = Some p
           /\ nth_error (Polygon.segments ps) ((i + 1) mod length ps)
              = Some (Segment.mk q r)
           /\ Segment.midpoint (Segment.mk q r) = Ok m.
Proof.
  unfold Polygon.medians.
  destruct (mapM_total
              (fun ps0 : Point.t * Segment.t =>
                 Segment.median (snd ps0) (fst ps0))
              (combine ps (Polygon.rotated (Polygon.segments ps))))
    as [ms Hms].
  { intros [p s] _. cbn [fst snd]. unfold Segment.median.
    rewrite segment_midpoint_ok. eexists. reflexivity. }
  exists ms. split; [ exact Hms | ]. split.
  - rewrite (mapM_length _ _ _ Hms), length_combine, length_rotated,
      segments_length. lia.
  - intros i Hi.
    destruct (heights_pairs_nth ps i Hi) as (p & q & r & Ep & _ & _ & Es & Ec).
    destruct (mapM_nth_error _ _ _ Hms _ _ Ec) as (m & Em & Hm).
    cbn [fst snd] in Hm. unfold Segment.median in Hm.
    rewrite segment_midpoint_ok in Hm. cbn [bind] in Hm.
    injection Hm as <-.
    do 4 eexists. split; [ exact Em | ]. split; [ exact Ep | ].
    split; [ exact Es | apply segment_midpoint_ok ].
Qed.

(** X24. The three medians of a triangle are concurrent at the centroid:
    the line through each median segment passes exactly through
    [centroid()]. *)
Theorem medians_meet_at_centroid (v0 v1 v2 : Point.t) :
  exists (g : Point.t) (ms : list Segment.t),
    Polygon.centroid [v0; v1; v2] = Ok g
    /\ Polygon.medians [v0; v1; v2] = Ok ms
    /\ length ms = 3%nat
    /\ forall m : Segment.t,
         In m ms ->
         exists l : Line.t,
           Segment.line m = Ok l
           /\ residual l g == 0
           /\ Line.contains l g = true.
Proof.
  destruct v0 as [x0 y0], v1 as [x1 y1], v2 as [x2 y2].
  eexists.
  exists [Segment.mk (Point.mk x0 y0)
            (Point.mk ((x1 + (x2 + 0)) / inject_Z 2)
                      ((y1 + (y2 + 0)) / inject_Z 2));
          Segment.mk (Point.mk x1 y1)
            (Point.mk ((x2 + (x0 + 0)) / inject_Z 2)
                      ((y2 + (y0 + 0)) / inject_Z 2));
          Segment.mk (Point.mk x2 y2)
            (Point.mk ((x0 + (x1 + 0)) / inject_Z 2)
                      ((y0 + (y1 + 0)) / inject_Z 2))].
  split; [ apply triangle_centroid | ].
  split; [ reflexivity | ]. split; [ reflexivity | ]. fields.
  assert (Haff : forall (l : Line.t) (p m : Point.t),
             Line.from_points p m = Ok l ->
             Point.x p + 2 * Point.x m == x0 + x1 + x2 ->
             Point.y p + 2 * Point.y m == y0 + y1 + y2 ->
             residual l (Point.mk ((x0 + (x1 + (x2 + 0))) / 3)
                                  ((y0 + (y1 + (y2 + 0))) / 3)) == 0).
  { intros l p m Hl Hx Hy.
    apply from_points_contains_both in Hl. destruct Hl as [Hp Hm].
    unfold residual. fields.
    transitivity
      ((Line.a l * Point.x p + Line.b l * Point.y p + Line.c l) / 3
       + 2 * (Line.a l * Point.x m + Line.b l * Point.y m + Line.c l) / 3
       + (Line.a l * ((x0 + x1 + x2) - (Point.x p + 2 * Point.x m))
          + Line.b l * ((y0 + y1 + y2) - (Point.y p + 2 * Point.y m))) / 3);
      [ field | ].
    rewrite Hp, Hm, Hx, Hy. field. }
  intros m Hin.
  destruct (Line.from_points (Segment.A m) (Segment.B m)) as [l | e] eqn:El;
    [ | rewrite from_points_cases in El; discriminate El ].
  exists l. split; [ exact El | ].
  assert (R0 : residual l (Point.mk ((x0 + (x1 + (x2 + 0))) / 3)
                                    ((y0 + (y1 + (y2 + 0))) / 3)) == 0).
  { destruct Hin as [<- | [<- | [<- | []]]];
      apply (Haff _ _ _ El);
      cbn [fst snd Point.x Point.y Segment.A Segment.B]; field. }
  split; [ exact R0 | now apply contains_exact ].
Qed.

(** ** Triangle-only operations *)

(** X25. On a polygon whose vertex count is not 3, [circumcenter()],
    [orthocenter()] and [euler()] raise [AssertionError], before any edge is
    looked at. *)
Theorem triangle_only_operations (t : Polygon.t) :
  length t <> 3%nat ->
  Polygon.circumcenter t = Raise AssertionError
  /\ Polygon.orthocenter t = Raise AssertionError
  /\ Polygon.euler t = Raise AssertionError.
Proof.
  intros H.
  assert (E : Polygon.assert_triangle t = Raise AssertionError).
  { unfold Polygon.assert_triangle.
    destruct (Nat.eqb_spec (length t) 3); [ contradiction | reflexivity ]. }
  unfold Polygon.circumcenter, Polygon.orthocenter, Polygon.euler.
  rewrite E. repeat split.
Qed.

Lemma triangle_only_operations_witness :
  Polygon.circumcenter [pt 0 0; pt 0 1; pt 1 1; pt 1 0] = Raise AssertionError
  /\ Polygon.orthocenter [pt 0 0; pt 0 1; pt 1 1; pt 1 0]
     = Raise AssertionError
  /\ Polygon.euler [pt 0 0; pt 0 1; pt 1 1; pt 1 0] = Raise AssertionError.
Proof.
  apply (triangle_only_operations [pt 0 0; pt 0 1; pt 1 1; pt 1 0]).
  simpl. lia.
Defined.

(** X26. Whenever [circumcenter()] returns a point, that point is at the
    same distance from all three vertices. *)
Theorem circumcenter_equidistant (v0 v1 v2 o : Point.t) :
  Polygon.circumcenter [v0; v1; v2] = Ok (Line.APoint o) ->
  dist o v0 = dist o v1 /\ dist o v1 = dist o v2.
Proof.
  intros Hc. rewrite triangle_circumcenter in Hc.
  destruct (Segment.perpendicular_bisector (Segment.mk v0 v1))
    as [[p0 q0 r0] |] eqn:Eb0; [ | discriminate Hc ].
  destruct (Segment.perpendicular_bisector (Segment.mk v1 v2))
    as [[p1 q1 r1] |] eqn:Eb1; [ | discriminate Hc ].
  destruct (Segment.perpendicular_bisector (Segment.mk v2 v0));
    [ | discriminate Hc ].
  fields.
  apply perpendicular_bisector_spec in Eb0, Eb1.
  apply intersect_point_exact in Hc.
  destruct Eb0 as [M0 P0], Eb1 as [M1 P1].
  apply perpendicular_to_iff in P0, P1.
  destruct P0 as [N0 P0], P1 as [N1 P1].
  destruct Hc as (_ & O0 & O1).
  destruct v0 as [x0 y0], v1 as [x1 y1], v2 as [x2 y2], o as [ox oy]. fields.
  assert (D0 : (x0 - x1) * (2 * ox - (x0 + x1))
               + (y0 - y1) * (2 * oy - (y0 + y1)) == 0).
  { apply (parallel_orthogonal _ _ p0 q0); [ lra | exact N0 | lra ]. }
  assert (D1 : (x1 - x2) * (2 * ox - (x1 + x2))
               + (y1 - y2) * (2 * oy - (y1 + y2)) == 0).
  { apply (parallel_orthogonal _ _ p1 q1); [ lra | exact N1 | lra ]. }
  split; apply dist_eq_of_sqdist; unfold sqdist; fields; lra.
Qed.

Lemma circumcenter_equidistant_witness :
  dist doc_circumcenter doc_A = dist doc_circumcenter doc_O
  /\ dist doc_circumcenter doc_O = dist doc_circumcenter doc_B.
Proof.
  apply (circumcenter_equidistant doc_A doc_O doc_B doc_circumcenter).
  vm_compute. reflexivity.
Defined.

(** X27. Whenever [orthocenter()] returns a point, the vector from each
    vertex to that point is orthogonal to the opposite edge. *)
Theorem orthocenter_on_altitudes (v0 v1 v2 h : Point.t) :
  Polygon.orthocenter [v0; v1; v2] = Ok (Line.APoint h) ->
  (Point.x h - Point.x v0) * (Point.x v1 - Point.x v2)
  + (Point.y h - Point.y v0) * (Point.y v1 - Point.y v2) == 0
  /\ (Point.x h - Point.x v1) * (Point.x v2 - Point.x v0)
     + (Point.y h - Point.y v1) * (Point.y v2 - Point.y v0) == 0
  /\ (Point.x h - Point.x v2) * (Point.x v0 - Point.x v1)
     + (Point.y h - Point.y v2) * (Point.y v0 - Point.y v1) == 0.
Proof.
  intros Ho. rewrite triangle_orthocenter in Ho.
  destruct (Segment.perpendicular (Segment.mk v1 v2) v0)
    as [[a0 b0 c0] |] eqn:Eh0; [ | discriminate Ho ].
  destruct (Segment.perpendicular (Segment.mk v2 v0) v1)
    as [[a1 b1 c1] |] eqn:Eh1; [ | discriminate Ho ].
  destruct (Segment.perpendicular (Segment.mk v0 v1) v2);
    [ | discriminate Ho ].
  fields.
  apply perpendicular_spec in Eh0, Eh1.
  apply intersect_point_exact in Ho.
  destruct Eh0 as [V0 Q0], Eh1 as [V1 Q1].
  apply perpendicular_to_iff in Q0, Q1.
  destruct Q0 as [N0 Q0], Q1 as [N1 Q1].
  destruct Ho as (_ & H0 & H1).
  destruct v0 as [x0 y0], v1 as [x1 y1], v2 as [x2 y2], h as [hx hy]. fields.
  assert (A0 : (x1 - x2) * (hx - x0) + (y1 - y2) * (hy - y0) == 0).
  { apply (parallel_orthogonal _ _ a0 b0); [ lra | exact N0 | lra ]. }
  assert (A1 : (x2 - x0) * (hx - x1) + (y2 - y0) * (hy - y1) == 0).
  { apply (parallel_orthogonal _ _ a1 b1); [ lra | exact N1 | lra ]. }
  repeat split; lra.
Qed.

Lemma orthocenter_on_altitudes_witness :
  (Point.x doc_orthocenter - Point.x doc_A) * (Point.x doc_O - Point.x doc_B)
  + (Point.y doc_orthocenter - Point.y doc_A)
    * (Point.y doc_O - Point.y doc_B) == 0
  /\ (Point.x doc_orthocenter - Point.x doc_O)
     * (Point.x doc_B - Point.x doc_A)
     + (Point.y doc_orthocenter - Point.y doc_O)
       * (Point.y doc_B - Point.y doc_A) == 0
  /\ (Point.x doc_orthocenter - Point.x doc_B)
     * (Point.x doc_A - Point.x doc_O)
     + (Point.y doc_orthocenter - Point.y doc_B)
       * (Point.y doc_A - Point.y doc_O) == 0.
Proof.
  apply (orthocenter_on_altitudes doc_A doc_O doc_B doc_orthocenter).
  vm_compute. reflexivity.
Defined.

Lemma intersect_returns (l1 l2 : Line.t) :
  exists m : Line.meet, Line.intersect l1 l2 = Ok m.
Proof.
  destruct (Qeq_dec (Line.b l1 * Line.a l2 - Line.a l1 * Line.b l2) 0)
    as [Hd | Hd].
  - rewrite (intersect_equal_slopes_cases _ _ Hd).
    destruct (xfloat_eqb _ _); eexists; reflexivity.
  - destruct (intersect_nonparallel_ok _ _ Hd) as [p Hp].
    eexists. exact Hp.
Qed.

Lemma perpendicular_outcome (s : Segment.t) (p : Point.t) :
  (is_vertical s = true
   /\ Segment.perpendicular s p = Raise ZeroDivisionError)
  \/ (is_vertical s = false
      /\ exists l : Line.t, Segment.perpendicular s p = Ok l).
Proof.
  destruct (is_vertical s) eqn:E.
  - left. split; [ reflexivity | ].
    apply is_vertical_true in E. destruct E as [Hx Hy].
    apply (perpendicular_zero_division s p Hx Hy).
  - right. split; [ reflexivity | ]. now apply perpendicular_returns.
Qed.

Lemma perpendicular_bisector_outcome (s : Segment.t) :
  (is_vertical s = true
   /\ Segment.perpendicular_bisector s = Raise ZeroDivisionError)
  \/ (is_vertical s = false
      /\ exists l : Line.t, Segment.perpendicular_bisector s = Ok l).
Proof.
  unfold Segment.perpendicular_bisector.
  rewrite segment_midpoint_ok. cbn [bind]. apply perpendicular_outcome.
Qed.

(** On floats the gradient of a nearly horizontal edge can underflow to
    zero: the triangle [(0, 0), (2.0**600, 2.0**-600), (1, 5)] has no
    vertical edge, and its centres raise. *)
Example centres_binary64_underflow_raise :
  existsb Binary64.is_vertical (Binary64.Polygon.segments Binary64.sliver)
  = false
  /\ Binary64.Polygon.circumcenter Binary64.sliver = Raise ZeroDivisionError
  /\ Binary64.Polygon.orthocenter Binary64.sliver = Raise ZeroDivisionError
  /\ Binary64.Polygon.euler Binary64.sliver = Raise ZeroDivisionError.
Proof. repeat split. Qed.

(** X28. In exact arithmetic, a triangle with a vertical edge has no
    circumcenter, orthocenter or Euler line: all three calls raise
    [ZeroDivisionError], also when the vertical edge is the one whose
    bisector or height is not used.  Without a vertical edge
    [circumcenter()] and [orthocenter()] return (a point, a line or [None]).
    (On floats the calls can raise without a vertical edge, see
    [centres_binary64_underflow_raise].) *)
Theorem triangle_centres_vertical_edge (v0 v1 v2 : Point.t) :
  (is_vertical (Segment.mk v0 v1) || is_vertical (Segment.mk v1 v2)
   || is_vertical (Segment.mk v2 v0) = true ->
   Polygon.circumcenter [v0; v1; v2] = Raise ZeroDivisionError
   /\ Polygon.orthocenter [v0; v1; v2] = Raise ZeroDivisionError
   /\ Polygon.euler [v0; v1; v2] = Raise ZeroDivisionError)
  /\ (is_vertical (Segment.mk v0 v1) || is_vertical (Segment.mk v1 v2)
      || is_vertical (Segment.mk v2 v0) = false ->
      exists m m' : Line.meet,
        Polygon.circumcenter [v0; v1; v2] = Ok m
        /\ Polygon.orthocenter [v0; v1; v2] = Ok m').
Proof.
  unfold Polygon.euler.
  change (Polygon.assert_triangle [v0; v1; v2]) with (Ok tt). cbn [bind].
  rewrite triangle_circumcenter, triangle_orthocenter.
  destruct (perpendicular_bisector_outcome (Segment.mk v0 v1))
    as [[V0 B0] | [V0 [b0 B0]]];
    destruct (perpendicular_bisector_outcome (Segment.mk v1 v2))
      as [[V1 B1] | [V1 [b1 B1]]];
    destruct (perpendicular_bisector_outcome (Segment.mk v2 v0))
      as [[V2 B2] | [V2 [b2 B2]]];
    destruct (perpendicular_outcome (Segment.mk v1 v2) v0)
      as [[W1 H0] | [W1 [h0 H0]]]; try congruence;
    destruct (perpendicular_outcome (Segment.mk v2 v0) v1)
      as [[W2 H1] | [W2 [h1 H1]]]; try congruence;
    destruct (perpendicular_outcome (Segment.mk v0 v1) v2)
      as [[W0 H2] | [W0 [h2 H2]]]; try congruence;
    rewrite V0, V1, V2, B0, B1, B2, H0, H1, H2; cbn [bind orb];
    (split; [ intros E; try discriminate E; repeat split
            | intros E; try discriminate E ]).
  destruct (intersect_returns b0 b1) as [m Hm].
  destruct (intersect_returns h0 h1) as [m' Hm'].
  exists m, m'. split; assumption.
Qed.

(** X29. For a triangle, [euler()] returns a line exactly when
    [circumcenter()] returns a point, and that line then passes through the
    circumcenter and the centroid.  Otherwise it raises: the exception of
    [circumcenter()] if that raised, [ValueError] if the two bisectors
    coincide (a line came back), [AttributeError] if they are parallel
    ([None] came back). *)
Theorem euler_outcome (v0 v1 v2 : Point.t) :
  match Polygon.circumcenter [v0; v1; v2] with
  | Ok (Line.APoint o) =>
      exists (g : Point.t) (e : Line.t),
        Polygon.centroid [v0; v1; v2] = Ok g
        /\ Polygon.euler [v0; v1; v2] = Ok e
        /\ residual e o == 0 /\ residual e g == 0
  | Ok (Line.ALine _) => Polygon.euler [v0; v1; v2] = Raise ValueError
  | Ok Line.ANone => Polygon.euler [v0; v1; v2] = Raise AttributeError
  | Raise e => Polygon.euler [v0; v1; v2] = Raise e
  end.
Proof.
  unfold Polygon.euler.
  change (Polygon.assert_triangle [v0; v1; v2]) with (Ok tt). cbn [bind].
  destruct (Polygon.circumcenter [v0; v1; v2]) as [[o | l |] | e];
    cbn [bind]; rewrite ?triangle_centroid; cbn [bind Line.from_points_dyn];
    try reflexivity.
  destruct (Line.from_points o _) as [e | x] eqn:Ee;
    [ | rewrite from_points_cases in Ee; discriminate Ee ].
  do 2 eexists. split; [ reflexivity | ]. split; [ reflexivity | ].
  apply from_points_contains_both in Ee. exact Ee.
Qed.

(** Both failing branches occur: three collinear points on a horizontal line
    give coinciding (vertical, hence "equal") bisectors, three on a slanted
    line give parallel ones. *)
Example euler_of_collinear_points :
  Polygon.euler [pt 0 0; pt 1 0; pt 3 0] = Raise ValueError
  /\ Polygon.euler [pt 0 0; pt 1 1; pt 3 3] = Raise AttributeError.
Proof. split; reflexivity. Qed.

(** ** The foot of the perpendicular *)

(** X30. On a line that is not horizontal ([a] nonzero), the perpendicular
    through a point [p] is returned and meets the line in a point [f]; [f]
    lies exactly on the line, and the distance from [p] to [f] is the
    point-to-line distance that [Point.dist] reports. *)
Theorem perpendicular_foot_distance (l : Line.t) (p : Point.t) :
  ~ Line.a l == 0 ->
  exists (l' : Line.t) (f : Point.t) (d : R),
    Line.perpendicular l p = Ok l'
    /\ Line.intersect l l' = Ok (Line.APoint f)
    /\ residual l f == 0
    /\ Point_dist p (Line.OfLine l) = Ok d
    /\ dist p f = d.
Proof.
  intros Ha.
  assert (Hperp : exists m : Q,
             Line.perpendicular l p
             = Ok (Line.from_slope_intercept_form m (Point.y p - m * Point.x p))
             /\ Line.a l * m == Line.b l).
  { unfold Line.perpendicular.
    destruct (Qeq_dec (Line.b l) 0) as [Hb | Hb].
    - rewrite (slope_inf l Hb). exists 0. split; [ reflexivity | ].
      rewrite Hb. ring.
    - rewrite (slope_finite l Hb).
      rewrite truediv_ok
        by (apply quotient_nonzero; [ intros E; apply Ha; lra | exact Hb ]).
      eexists. split; [ reflexivity | ]. field. split; assumption. }
  destruct Hperp as (m & Hl' & Hm).
  set (l' := Line.from_slope_intercept_form m (Point.y p - m * Point.x p))
    in *.
  assert (Hd : ~ Line.b l * Line.a l' - Line.a l * Line.b l' == 0).
  { unfold l'. cbn [Line.from_slope_intercept_form Line.a Line.b].
    intros E.
    assert (E2 : Line.a l * Line.a l + Line.b l * Line.b l == 0).
    { transitivity (Line.a l * (Line.b l * m - Line.a l * -1)
                    + Line.b l * (Line.b l - Line.a l * m));
        [ ring | ].
      rewrite E, Hm. ring. }
    apply sum_squares_zero in E2. tauto. }
  destruct (intersect_nonparallel_ok _ _ Hd) as [f Hf].
  pose proof (intersect_point_exact _ _ _ Hf) as (_ & F1 & F2).
  assert (Hnd : ~ (Line.a l == 0 /\ Line.b l == 0)) by tauto.
  exists l', f. eexists.
  split; [ exact Hl' | ]. split; [ exact Hf | ].
  split; [ exact F1 | ].
  split; [ apply (point_dist_line_ok l p Hnd) | ].
  (* the algebra: residual^2 = (a^2 + b^2) * squared distance *)
  assert (Hsq : residual l p * residual l p
                == (Line.a l * Line.a l + Line.b l * Line.b l) * sqdist p f).
  { unfold l' in F2. cbn [Line.from_slope_intercept_form Line.a Line.b Line.c]
      in F2.
    destruct l as [a b c], p as [px py], f as [fx fy].
    unfold residual, sqdist. fields.
    assert (U : m * (px - fx) - (py - fy) == 0) by lra.
    assert (W : b * (px - fx) - a * (py - fy) == 0).
    { transitivity (a * (m * (px - fx) - (py - fy))
                    + (b - a * m) * (px - fx)); [ ring | ].
      rewrite U, Hm. ring. }
    assert (E : a * px + b * py + c
                == a * (px - fx) + b * (py - fy)) by lra.
    rewrite E.
    transitivity
      ((a * a + b * b)
       * ((px - fx) * (px - fx) + (py - fy) * (py - fy))
       - (b * (px - fx) - a * (py - fy)) * (b * (px - fx) - a * (py - fy)));
      [ ring | ].
    rewrite W. ring. }
  apply Qeq_eqR in Hsq. rewrite !Q2R_mult in Hsq.
  rewrite dist_sqdist. unfold hypot.
  pose proof (Q2R_sqdist_nonneg p f) as HS.
  assert (HH : (0 < Q2R (Line.a l * Line.a l + Line.b l * Line.b l))%R).
  { rewrite <- RMicromega.Q2R_0. apply Qlt_Rlt.
    assert (0 <= Line.b l * Line.b l) by nra.
    assert (0 < Line.a l * Line.a l) by nra.
    lra. }
  revert Hsq HS HH.
  generalize (Q2R (residual l p)),
    (Q2R (Line.a l * Line.a l + Line.b l * Line.b l)), (Q2R (sqdist p f)).
  intros r H S Hsq HS HH.
  rewrite <- sqrt_Rsqr_abs. unfold Rsqr. rewrite Hsq.
  rewrite sqrt_mult by lra.
  pose proof (sqrt_lt_R0 H HH). field. lra.
Qed.

Lemma perpendicular_foot_distance_witness :
  exists (l' : Line.t) (f : Point.t) (d : R),
    Line.perpendicular doc_a (pt 0 0) = Ok l'
    /\ Line.intersect doc_a l' = Ok (Line.APoint f)
    /\ residual doc_a f == 0
    /\ Point_dist (pt 0 0) (Line.OfLine doc_a) = Ok d
    /\ dist (pt 0 0) f = d.
Proof.
  apply (perpendicular_foot_distance doc_a (pt 0 0)).
  vm_compute. discriminate.
Defined.
